(** * The element walker of dcmutl.py

    A shallow embedding of the traversal and formatting functions of
    [dcmutl.py] ([get_image_index], [ds_to_dict], [extract_all_elements]
    and the loop of [get_dicom_elements_file]) together with the
    properties the specification states about them.

    The parsed dataset comes from pydicom, which is not part of the
    repository.  What the functions use of it is fixed here as a data type
    ([Dataset]) and, for the two operations on a tag object whose result
    only the library knows (its display form and its comparison with a
    string), as variables of a section. *)

From Stdlib Require Import ZArith NArith String Ascii List Lia.
From stdpp Require Import base option gmap strings list fin_maps pretty.

#[local] Set Warnings "-register-all".
#[local] Open Scope Z_scope.

(** ** Data model *)

(** A [Dataset] is iterated in tag order and yields its elements.  An
    element exposes [tag], [keyword], [name] (the display name) and
    [value].  pydicom keeps a [Sequence] of datasets as the value of an
    element exactly when the element's VR is ["SQ"], so the test
    [elem.VR == "SQ"] of the walker is the match on the constructor of the
    value; every other value is kept here by the text [str] gives for it,
    the only thing the walker asks of it. *)
Inductive Dataset : Type :=
| mkDataset (elems : list DataElement)
with DataElement : Type :=
| mkDataElement (tag : N) (keyword : string) (name : string)
    (value : ElemValue)
with ElemValue : Type :=
| Scalar (text : string)
| Sequence (items : list Dataset).

Definition elems (ds : Dataset) : list DataElement :=
  match ds with mkDataset l => l end.

Definition tag (elem : DataElement) : N :=
  match elem with mkDataElement t _ _ _ => t end.

Definition keyword (elem : DataElement) : string :=
  match elem with mkDataElement _ k _ _ => k end.

Definition name (elem : DataElement) : string :=
  match elem with mkDataElement _ _ n _ => n end.

Definition value (elem : DataElement) : ElemValue :=
  match elem with mkDataElement _ _ _ v => v end.

(** The values [ds_to_dict] builds: a dict from display names to either a
    string or a list of such dicts.  Python compares dicts by content, which
    is the equality of [gmap]. *)
Inductive PyValue : Type :=
| PyStr (s : string)
| PyList (l : list (gmap string PyValue)).

Abbreviation PyDict := (gmap string PyValue).

(** ** get_image_index *)

(** The recursion of [get_image_index] is not structural: every call that
    does not return opens a new frame.  [depth] is the number of frames
    the interpreter allows; [None] is the run that needs more. *)
Fixpoint get_image_index (depth : nat) (n t : Z) : option Z :=
  match depth with
  | O => None
  | S depth' =>
      if t <? n then Some t
      else get_image_index depth' n (t - n)
  end.

(** The direct arithmetic the specification asks for in its place. *)
Definition image_index_direct (n t : Z) : Z := t mod n.

(** ** ds_to_dict *)

Fixpoint ds_to_dict (ds : Dataset) : PyDict :=
  foldl (fun out elem =>
           match value elem with
           | Sequence items =>
               <[name elem := PyList (map ds_to_dict items)]> out
           | Scalar text =>
               <[name elem := PyStr text]> out
           end) ∅ (elems ds).

(** What [ds_to_dict] stores for one element. *)
Definition elem_to_value (elem : DataElement) : PyValue :=
  match value elem with
  | Sequence items => PyList (map ds_to_dict items)
  | Scalar text => PyStr text
  end.

(** ** Strings *)

(** [" " * indent]: a negative count gives the empty string. *)
Fixpoint replicate_string (n : nat) (s : string) : string :=
  match n with
  | O => ""
  | S n' => s +:+ replicate_string n' s
  end.

Definition spaces (indent : Z) : string :=
  replicate_string (Z.to_nat indent) " ".

(** [enumerate] with the loop body folded over the list: [body] receives
    the accumulated state, the index and the item. *)
Definition foldl_enumerate {A B : Type} (body : B -> nat -> A -> B)
  : nat -> B -> list A -> B :=
  fix go (i : nat) (acc : B) (l : list A) : B :=
    match l with
    | [] => acc
    | x :: l' => go (S i) (body acc i x) l'
    end.

(** ** extract_all_elements and get_dicom_elements_file *)

(** [elem.keyword or elem.tag]: the keyword when it is not empty, else the
    tag object. *)
Inductive Key : Type :=
| KeyStr (s : string)
| KeyTag (t : N).

Definition keyword_or_tag (elem : DataElement) : Key :=
  if String.eqb (keyword elem) "" then KeyTag (tag elem)
  else KeyStr (keyword elem).

Section Walker.

(** [str] of a tag object, which an f-string uses for it. *)
Variable tag_str : N -> string.
(** [==] between a tag object and a string, as the tag class defines
    it. *)
Variable tag_eq_str : N -> string -> bool.

(** [f"{keyword}"] *)
Definition key_text (k : Key) : string :=
  match k with
  | KeyStr s => s
  | KeyTag t => tag_str t
  end.

(** [keyword == s] *)
Definition key_eqb (k : Key) (s : string) : bool :=
  match k with
  | KeyStr s' => String.eqb s' s
  | KeyTag t => tag_eq_str t s
  end.

(** [attrs is None or keyword in attrs] *)
Definition attrs_allow (attrs : option (list string)) (k : Key) : bool :=
  match attrs with
  | None => true
  | Some l => existsb (key_eqb k) l
  end.

(** [f"{path}.{keyword}" if path else keyword] *)
Definition current_path (path : string) (k : Key) : string :=
  if String.eqb path "" then key_text k
  else path +:+ "." +:+ key_text k.

(** [f"{current_path}[{i}]"] *)
Definition seq_path (cur : string) (i : nat) : string :=
  cur +:+ "[" +:+ pretty i +:+ "]".

Definition seq_item_line (indent : Z) (sp : string) : string :=
  spaces indent +:+ "[Sequence Item] " +:+ sp.

Definition elem_line (indent : Z) (k : Key) (text : string) : string :=
  spaces indent +:+ key_text k +:+ " --> " +:+ text.

(** The function appends to the list object [elements] it is given and
    returns nothing; here it returns the list as it is after the call. *)
Fixpoint extract_all_elements (ds : Dataset) (elements : list string)
    (indent : Z) (attrs : option (list string)) (path : string)
    {struct ds} : list string :=
  foldl (fun elements elem =>
           let keyword := keyword_or_tag elem in
           let current_path := current_path path keyword in
           match value elem with
           | Sequence items =>
               foldl_enumerate (fun elements i item =>
                   let seq_path := seq_path current_path i in
                   extract_all_elements item
                     (elements ++ [seq_item_line indent seq_path])
                     (indent + 4) attrs seq_path)
                 0%nat elements items
           | Scalar text =>
               if key_eqb keyword "PixelData" then elements
               else if attrs_allow attrs keyword
                    then elements ++ [elem_line indent keyword text]
                    else elements
           end) elements (elems ds).

End Walker.

(** The loop of [get_dicom_elements_file] that fills [elements]; reading
    the file and writing the lines out surround it.  The loop iterates the
    dataset and looks every item it is handed up again with [ds[k]]. *)
Section FlatLines.

(** [str] of an element, which [format] uses for it. *)
Variable elem_str : DataElement -> string.
(** [ds[k]]; [None] is the [KeyError] of a lookup the library refuses. *)
Variable getitem : Dataset -> DataElement -> option DataElement.

Definition flat_line (k ele : DataElement) : string :=
  elem_str k +:+ " --> " +:+ elem_str ele.

Definition get_dicom_elements_file (ds : Dataset)
    (attrs : option (list string)) : option (list string) :=
  foldl (fun acc k =>
           elements ← acc;
           ele ← getitem ds k;
           match attrs with
           | None => Some (elements ++ [flat_line k ele])
           | Some l =>
               if existsb (String.eqb (keyword ele)) l
               then Some (elements ++ [flat_line k ele])
               else Some elements
           end) (Some []) (elems ds).

End FlatLines.

(** ** The walker over the object store

    In the program a dataset is an object with an identity, a sequence
    holds references to dataset objects, and [elements] is a reference to
    a list object that every level of the recursion appends to.  [Store]
    runs the two traversals on such a store, threading it through every
    step, so that what a traversal does to the objects it visits can be
    stated. *)
Module Store.

Definition loc := positive.

Inductive HeapValue : Type :=
| HScalar (text : string)
| HSequence (items : list loc).

Record HeapElement : Type := mkHeapElement {
  h_tag : N;
  h_keyword : string;
  h_name : string;
  h_value : HeapValue
}.

(** The dataset objects and the list objects, by identity. *)
Record Heap : Type := mkHeap {
  datasets : gmap loc (list HeapElement);
  lists : gmap loc (list string)
}.

(** A run reads and writes the store; [None] is a run that does not
    return: a reference to no object, or a recursion deeper than
    [fuel]. *)
Definition Run (A : Type) : Type := Heap -> option (A * Heap).

#[global] Instance Run_ret : MRet Run := fun A a h => Some (a, h).

#[global] Instance Run_bind : MBind Run := fun A B f m h =>
  match m h with
  | Some (a, h') => f a h'
  | None => None
  end.

Definition raise {A : Type} : Run A := fun _ => None.

(** [for elem in ds]: the elements of the dataset object. *)
Definition get_dataset (ds : loc) : Run (list HeapElement) := fun h =>
  match datasets h !! ds with
  | Some es => Some (es, h)
  | None => None
  end.

(** [elements.append(line)] *)
Definition list_append (elements : loc) (line : string) : Run unit :=
  fun h =>
    match lists h !! elements with
    | Some old =>
        Some (tt, mkHeap (datasets h) (<[elements := old ++ [line]]> (lists h)))
    | None => None
    end.

Definition for_each {A : Type} (body : A -> Run unit)
  : list A -> Run unit :=
  fix go (l : list A) : Run unit :=
    match l with
    | [] => mret tt
    | x :: l' => body x ≫= fun _ => go l'
    end.

Definition for_enumerate {A : Type} (body : nat -> A -> Run unit)
  : nat -> list A -> Run unit :=
  fix go (i : nat) (l : list A) : Run unit :=
    match l with
    | [] => mret tt
    | x :: l' => body i x ≫= fun _ => go (S i) l'
    end.

(** A loop that updates a local variable. *)
Definition for_fold {A B : Type} (body : B -> A -> Run B)
  : B -> list A -> Run B :=
  fix go (acc : B) (l : list A) : Run B :=
    match l with
    | [] => mret acc
    | x :: l' => body acc x ≫= fun acc' => go acc' l'
    end.

(** A list comprehension. *)
Definition for_list {A B : Type} (f : A -> Run B)
  : list A -> Run (list B) :=
  fix go (l : list A) : Run (list B) :=
    match l with
    | [] => mret []
    | x :: l' => f x ≫= fun y => go l' ≫= fun ys => mret (y :: ys)
    end.

Definition keyword_or_tag (elem : HeapElement) : Key :=
  if String.eqb (h_keyword elem) "" then KeyTag (h_tag elem)
  else KeyStr (h_keyword elem).

Fixpoint ds_to_dict (fuel : nat) (ds : loc) : Run PyDict :=
  match fuel with
  | O => raise
  | S fuel' =>
      get_dataset ds ≫= fun elems =>
      for_fold (fun out elem =>
          match h_value elem with
          | HSequence items =>
              for_list (ds_to_dict fuel') items ≫= fun l =>
              mret (<[h_name elem := PyList l]> out)
          | HScalar text =>
              mret (<[h_name elem := PyStr text]> out)
          end) ∅ elems
  end.

Section Walker.

Variable tag_str : N -> string.
Variable tag_eq_str : N -> string -> bool.

Fixpoint extract_all_elements (fuel : nat) (ds elements : loc)
    (indent : Z) (attrs : option (list string)) (path : string)
    : Run unit :=
  match fuel with
  | O => raise
  | S fuel' =>
      get_dataset ds ≫= fun elems =>
      for_each (fun elem =>
          let keyword := keyword_or_tag elem in
          let current_path := current_path tag_str path keyword in
          match h_value elem with
          | HSequence items =>
              for_enumerate (fun i item =>
                  let seq_path := seq_path current_path i in
                  list_append elements (seq_item_line indent seq_path)
                  ≫= fun _ =>
                  extract_all_elements fuel' item elements
                    (indent + 4) attrs seq_path)
                0%nat items
          | HScalar text =>
              if key_eqb tag_eq_str keyword "PixelData" then mret tt
              else if attrs_allow tag_eq_str attrs keyword
                   then list_append elements
                          (elem_line tag_str indent keyword text)
                   else mret tt
          end) elems
  end.

End Walker.

(** The dataset object at [l] has the structure of the tree [ds]: the
    same elements in the same order, every sequence holding references
    to objects with the structure of its items. *)
Fixpoint represents (h : gmap loc (list HeapElement)) (ds : Dataset)
    (l : loc) {struct ds} : bool :=
  match h !! l with
  | None => false
  | Some hes =>
      (fix elems_match (es : list DataElement) (hes : list HeapElement)
         : bool :=
         match es, hes with
         | [], [] => true
         | e :: es', he :: hes' =>
             N.eqb (tag e) (h_tag he)
             && String.eqb (keyword e) (h_keyword he)
             && String.eqb (name e) (h_name he)
             && match value e, h_value he with
                | Scalar s, HScalar s' => String.eqb s s'
                | Sequence items, HSequence locs =>
                    (fix items_match (items : list Dataset)
                       (locs : list loc) : bool :=
                       match items, locs with
                       | [], [] => true
                       | item :: items', l' :: locs' =>
                           represents h item l' && items_match items' locs'
                       | _, _ => false
                       end) items locs
                | _, _ => false
                end
             && elems_match es' hes'
         | _, _ => false
         end) (elems ds) hes
  end.

End Store.

(** The nesting depth of a dataset, counting the dataset itself. *)
Fixpoint height (ds : Dataset) : nat :=
  S (foldr (fun elem acc =>
              match value elem with
              | Sequence items =>
                  Nat.max (foldr (fun item acc' => Nat.max (height item) acc')
                             0%nat items) acc
              | Scalar _ => acc
              end) 0%nat (elems ds)).

(** ** Tag names

    [update_tags_ds], [add_tags] and [remove_tags] read a tag name of
    eight hexadecimal digits as the group and the element of a tag, and
    any other name as a keyword. *)

(** [c in s] for a character [c]. *)
Fixpoint char_in (c : ascii) (s : string) : bool :=
  match s with
  | EmptyString => false
  | String c' s' => Ascii.eqb c c' || char_in c s'
  end.

(** [all(p(c) for c in s)] *)
Fixpoint all_chars (p : ascii -> bool) (s : string) : bool :=
  match s with
  | EmptyString => true
  | String c s' => p c && all_chars p s'
  end.

(** [len(tag_name) == 8 and
     all(c in '0123456789ABCDEFabcdef' for c in tag_name)] *)
Definition is_hex_tag_name (tag_name : string) : bool :=
  Nat.eqb (String.length tag_name) 8
  && all_chars (fun c => char_in c "0123456789ABCDEFabcdef") tag_name.

(** The value of a hexadecimal digit, read off its character code:
    ['0'..'9'], ['A'..'F'] and ['a'..'f']. *)
Definition hex_value (c : ascii) : option N :=
  let code := N_of_ascii c in
  if (48 <=? code)%N && (code <=? 57)%N then Some (code - 48)%N
  else if (65 <=? code)%N && (code <=? 70)%N then Some (code - 55)%N
  else if (97 <=? code)%N && (code <=? 102)%N then Some (code - 87)%N
  else None.

Fixpoint int16_digits (acc : N) (s : string) : option N :=
  match s with
  | EmptyString => Some acc
  | String c s' =>
      match hex_value c with
      | Some v => int16_digits (acc * 16 + v) s'
      | None => None
      end
  end.

(** [int(s, 16)] on the strings the callers pass, which hold hexadecimal
    digits only; [None] is the [ValueError] of a string that is empty or
    holds another character. *)
Definition int16 (s : string) : option N :=
  match s with
  | EmptyString => None
  | _ => int16_digits 0 s
  end.

(** [int(tag_name[0:4], 16)] and [int(tag_name[4:8], 16)]; [None] is the
    [ValueError]. *)
Definition hex_group_element (tag_name : string) : option (N * N) :=
  match int16 (substring 0 4 tag_name), int16 (substring 4 4 tag_name) with
  | Some group, Some element => Some (group, element)
  | _, _ => None
  end.

(** ** The operations on tags

    What [update_tags_ds] does to the dataset it is given, and what
    [add_tags] and [remove_tags] do to the dataset they have read, before
    they save it.  The dataset is an object of pydicom that the calls
    change in place; a call of the library gives the dataset as it has
    left it and, if it raised, the exception. *)

Inductive PyExn : Type :=
| ValueError
| KeyError
| OtherException.

Definition Outcome (D : Type) : Type := (D * option PyExn)%type.

Section TagOperations.

(** The dataset and the values of pydicom. *)
Variables D V : Type.
(** [(group, element) in ds] *)
Variable contains : D -> N -> N -> bool.
(** [ds[group, element].value = value] *)
Variable set_item_value : D -> N -> N -> V -> Outcome D.
(** [ds.add_new((group, element), 'LO', value)] *)
Variable add_new_LO : D -> N -> N -> V -> Outcome D.
(** [del ds[group, element]] *)
Variable del_item : D -> N -> N -> Outcome D.
(** [hasattr(ds, tag_name)], which answers and leaves the dataset as it
    is. *)
Variable hasattr : D -> string -> bool.
(** [setattr(ds, tag_name, value)] and [delattr(ds, tag_name)] *)
Variable setattr : D -> string -> V -> Outcome D.
Variable delattr : D -> string -> Outcome D.

(** The function returns [ds]; an exception that no [except] clause
    takes leaves the function with the dataset as it is then. *)
Definition update_tags_ds (ds : D) (tag_name : string) (value : V)
  : Outcome D :=
  if is_hex_tag_name tag_name then
    let attempt :=
      match hex_group_element tag_name with
      | None => (ds, Some ValueError)
      | Some (group, element) =>
          if contains ds group element
          then set_item_value ds group element value
          else (ds, None)
      end in
    match attempt with
    | (ds', Some ValueError) | (ds', Some KeyError) => (ds', None)
    | outcome => outcome
    end
  else
    let attempt :=
      if hasattr ds tag_name
      then setattr ds tag_name value
      else setattr ds tag_name value in
    (fst attempt, None).

(** [add_tags] between [dcmread] and [save_as]: the dataset that is
    saved. *)
Definition add_tags (ds : D) (tag_name : string) (value : V) : D :=
  let attempt :=
    if is_hex_tag_name tag_name then
      match hex_group_element tag_name with
      | None => (ds, Some ValueError)
      | Some (group, element) =>
          if negb (contains ds group element)
          then add_new_LO ds group element value
          else (ds, None)
      end
    else
      if negb (hasattr ds tag_name)
      then setattr ds tag_name value
      else (ds, None) in
  fst attempt.

(** [remove_tags] between [dcmread] and [save_as]. *)
Definition remove_tags (ds : D) (tag_name : string) : D :=
  let attempt :=
    if is_hex_tag_name tag_name then
      match hex_group_element tag_name with
      | None => (ds, Some ValueError)
      | Some (group, element) =>
          if contains ds group element
          then del_item ds group element
          else (ds, None)
      end
    else
      if hasattr ds tag_name
      then delattr ds tag_name
      else (ds, None) in
  fst attempt.

End TagOperations.

(** ** get_not_deidentified_list *)

Section Deidentification.

(** The values of pydicom, with their truth value, their comparison with
    the empty string and their [str]. *)
Variable V : Type.
Variable truthy : V -> bool.
Variable eq_empty_str : V -> bool.
Variable str : V -> string.
(** [ds[deidtag].value]; [None] is the [KeyError] of the lookup. *)
Variable lookup : string -> option V.

Record DeidLists : Type := mkDeidLists {
  not_deidentified_list : list string;
  deidentified_list : list string;
  not_existing_keys : list string
}.

(** One turn of the loop over [deid_tags]. *)
Definition deid_turn (lists : DeidLists) (deidtag : string) : DeidLists :=
  match lookup deidtag with
  | Some value =>
      if negb (truthy value) || eq_empty_str value
      then mkDeidLists (not_deidentified_list lists)
             (deidentified_list lists ++ [deidtag +:+ ":" +:+ str value])
             (not_existing_keys lists)
      else mkDeidLists
             (not_deidentified_list lists
              ++ [deidtag +:+ ":" +:+ str value])
             (deidentified_list lists)
             (not_existing_keys lists)
  | None =>
      mkDeidLists (not_deidentified_list lists) (deidentified_list lists)
        (not_existing_keys lists ++ [deidtag])
  end.

(** The loop, which fills the three lists. *)
Definition deid_loop (deid_tags : list string) : DeidLists :=
  foldl deid_turn (mkDeidLists [] [] []) deid_tags.

(** What the function returns; the three lists also go to the report it
    writes. *)
Definition get_not_deidentified_list (deid_tags : list string)
  : list string :=
  not_deidentified_list (deid_loop deid_tags).

End Deidentification.

(** ** get_dicom_elements_file_nested_text *)

Section NestedText.

Variable tag_str : N -> string.
Variable tag_eq_str : N -> string -> bool.
(** [str] of a sequence of datasets. *)
Variable seq_str : list Dataset -> string.

(** [f"{elem.value}"] *)
Definition value_text (v : ElemValue) : string :=
  match v with
  | Scalar text => text
  | Sequence items => seq_str items
  end.

(** The list [elements] the function writes out and prints.  [file_meta]
    is [None] for a dataset without the attribute. *)
Definition get_dicom_elements_file_nested_text (file_meta : option Dataset)
    (ds : Dataset) (attrs : option (list string)) : list string :=
  let elements :=
    match file_meta with
    | Some meta =>
        foldl (fun elements elem =>
                 let keyword := keyword_or_tag elem in
                 if negb (key_eqb tag_eq_str keyword "PixelData")
                 then elements
                      ++ [key_text tag_str keyword +:+ " --> "
                          +:+ value_text (value elem)]
                 else elements)
          ["[File Meta Information]"] (elems meta)
    | None => []
    end in
  let elements := elements ++ [String "010" "[Dataset]"] in
  extract_all_elements tag_str tag_eq_str ds elements 0 attrs "".

End NestedText.

(** ** Sample data *)

Definition hex_digit (n : N) : string :=
  match n with
  | 0 => "0" | 1 => "1" | 2 => "2" | 3 => "3" | 4 => "4" | 5 => "5"
  | 6 => "6" | 7 => "7" | 8 => "8" | 9 => "9" | 10 => "a" | 11 => "b"
  | 12 => "c" | 13 => "d" | 14 => "e" | _ => "f"
  end%N.

Definition hex4 (n : N) : string :=
  (hex_digit (n / 4096 mod 16) +:+ hex_digit (n / 256 mod 16)
   +:+ hex_digit (n / 16 mod 16) +:+ hex_digit (n mod 16))%N.

(** A display form for tags, group and element in hexadecimal. *)
Definition tag_hex_str (t : N) : string :=
  ("(" +:+ hex4 (t / 65536) +:+ ", " +:+ hex4 (t mod 65536) +:+ ")")%N.

(** A comparison of a tag with a string that reads the string as a
    keyword of a small dictionary. *)
Definition sample_dictionary : list (string * N) :=
  [("Modality", 524384%N); ("PatientID", 1048608%N);
   ("PixelData", 2145386512%N)].

Definition tag_eq_keyword (t : N) (s : string) : bool :=
  match find (fun kv => String.eqb (fst kv) s) sample_dictionary with
  | Some kv => N.eqb t (snd kv)
  | None => false
  end.

(** A display form for elements. *)
Definition tag_name_str (elem : DataElement) : string :=
  tag_hex_str (tag elem) +:+ " " +:+ name elem.

(** The lookup [ds[k]] for a key that is an element, which is what the
    loop of [get_dicom_elements_file] hands it: pydicom reads a key as a
    tag, an element is none, and the lookup raises [KeyError]. *)
Definition element_key_lookup (ds : Dataset) (k : DataElement)
  : option DataElement :=
  None.

Definition modality_CT : DataElement :=
  mkDataElement 524384 "Modality" "Modality" (Scalar "CT").

Definition patient_id_123 : DataElement :=
  mkDataElement 1048608 "PatientID" "Patient ID" (Scalar "123").

Definition pixel_data : DataElement :=
  mkDataElement 2145386512 "PixelData" "Pixel Data" (Scalar "b'\x00\x01'").

(** Two private elements: no keyword, and the same display name. *)
Definition private_a : DataElement :=
  mkDataElement 589840 "" "Private tag data" (Scalar "a").

Definition private_b : DataElement :=
  mkDataElement 589841 "" "Private tag data" (Scalar "b").

Definition ds_flat : Dataset := mkDataset [modality_CT; patient_id_123].

Definition ds_private : Dataset := mkDataset [private_a; private_b].

Definition ds_item : Dataset := mkDataset [patient_id_123; private_a].

Definition referenced_series : DataElement :=
  mkDataElement 528661 "ReferencedSeriesSequence"
    "Referenced Series Sequence" (Sequence [ds_flat; ds_item]).

Definition ds_nested : Dataset :=
  mkDataset [modality_CT; referenced_series; pixel_data].

(** A dataset whose sequence holds two datasets of the same structure. *)
Definition shared_series : DataElement :=
  mkDataElement 528661 "ReferencedSeriesSequence"
    "Referenced Series Sequence" (Sequence [ds_flat; ds_flat]).

Definition ds_shared : Dataset := mkDataset [modality_CT; shared_series].

(** A store with two dataset objects of the structure of [ds_flat], a
    third one of the structure of [ds_shared] whose sequence refers to the
    two, and an empty list object. *)
Definition heap_elem (e : DataElement) (locs : list Store.loc)
  : Store.HeapElement :=
  Store.mkHeapElement (tag e) (keyword e) (name e)
    match value e with
    | Scalar text => Store.HScalar text
    | Sequence _ => Store.HSequence locs
    end.

Definition sample_heap : Store.Heap :=
  Store.mkHeap
    (<[1%positive := map (fun e => heap_elem e []) (elems ds_flat)]>
       (<[2%positive := map (fun e => heap_elem e []) (elems ds_flat)]>
          (<[3%positive := [heap_elem modality_CT [];
                            heap_elem referenced_series [1; 2]%positive]]>
             ∅)))
    (<[1%positive := []]> ∅).

(** The datasets a sequence element holds; none for any other element. *)
Definition elem_items (elem : DataElement) : list Dataset :=
  match value elem with
  | Sequence items => items
  | Scalar _ => []
  end.

(** A dataset as a map from tag numbers to values, with the operations on
    it that the functions on tags call; a keyword is looked up in
    [sample_dictionary], and on a name that is no keyword [setattr]
    leaves the elements as they are and [delattr] raises. *)
Definition tag_number (group element : N) : N :=
  (group * 65536 + element)%N.

Definition keyword_tag (tag_name : string) : option N :=
  option_map snd
    (find (fun kv => String.eqb (fst kv) tag_name) sample_dictionary).

Definition map_contains (m : gmap N string) (group element : N) : bool :=
  match m !! tag_number group element with
  | Some _ => true
  | None => false
  end.

Definition map_set (m : gmap N string) (group element : N)
    (value : string) : Outcome (gmap N string) :=
  (<[tag_number group element := value]> m, None).

Definition map_del (m : gmap N string) (group element : N)
  : Outcome (gmap N string) :=
  (delete (tag_number group element) m, None).

Definition map_hasattr (m : gmap N string) (tag_name : string) : bool :=
  match keyword_tag tag_name with
  | Some t => match m !! t with Some _ => true | None => false end
  | None => false
  end.

Definition map_setattr (m : gmap N string) (tag_name : string)
    (value : string) : Outcome (gmap N string) :=
  match keyword_tag tag_name with
  | Some t => (<[t := value]> m, None)
  | None => (m, None)
  end.

Definition map_delattr (m : gmap N string) (tag_name : string)
  : Outcome (gmap N string) :=
  match keyword_tag tag_name with
  | Some t => (delete t m, None)
  | None => (m, Some OtherException)
  end.

(** Modality is ["CT"], PatientID is blank. *)
Definition sample_tags : gmap N string :=
  <[524384%N := "CT"]> (<[1048608%N := ""]> ∅).

Definition sample_lookup (tag_name : string) : option string :=
  keyword_tag tag_name ≫= fun t => sample_tags !! t.

Definition str_truthy (value : string) : bool :=
  negb (String.eqb value "").

(** A store whose dataset object holds a sequence that refers to the
    object itself. *)
Definition cyclic_heap : Store.Heap :=
  Store.mkHeap
    (<[1%positive := [heap_elem modality_CT [];
                      heap_elem referenced_series [1%positive]]]> ∅)
    ∅.

(** ** Notions the properties are stated with *)

(** The dataset with every non-sequence element of keyword ["PixelData"]
    taken out, at every depth. *)
Fixpoint without_pixel_data (ds : Dataset) : Dataset :=
  mkDataset
    (foldr (fun elem kept =>
              match value elem with
              | Sequence items =>
                  mkDataElement (tag elem) (keyword elem) (name elem)
                    (Sequence (map without_pixel_data items)) :: kept
              | Scalar _ =>
                  if String.eqb (keyword elem) "PixelData" then kept
                  else elem :: kept
              end) [] (elems ds)).

(** Some non-sequence element of the dataset, at some depth, has the
    keyword ["PixelData"]. *)
Fixpoint has_pixel_data (ds : Dataset) : bool :=
  existsb (fun elem =>
             match value elem with
             | Sequence items => existsb has_pixel_data items
             | Scalar _ => String.eqb (keyword elem) "PixelData"
             end) (elems ds).

(** Every keyword of the dataset, at every depth, satisfies [ok]. *)
Fixpoint all_keywords (ok : string -> bool) (ds : Dataset) : bool :=
  forallb (fun elem =>
             ok (keyword elem)
             && match value elem with
                | Sequence items => forallb (all_keywords ok) items
                | Scalar _ => true
                end) (elems ds).

Fixpoint no_space (s : string) : bool :=
  match s with
  | EmptyString => true
  | String c s' => negb (Ascii.eqb c " ") && no_space s'
  end.

Definition starts_with_space (s : string) : bool :=
  match s with
  | String c _ => Ascii.eqb c " "
  | EmptyString => false
  end.

Section WalkerNotions.

Variable tag_str : N -> string.
Variable tag_eq_str : N -> string -> bool.

(** The lines one turn of the loop of [extract_all_elements] appends. *)
Definition elem_lines (indent : Z) (attrs : option (list string))
    (path : string) (elem : DataElement) : list string :=
  let keyword := keyword_or_tag elem in
  let current_path := current_path tag_str path keyword in
  match value elem with
  | Sequence items =>
      concat (imap (fun i item =>
                      seq_item_line indent (seq_path current_path i)
                      :: extract_all_elements tag_str tag_eq_str item []
                           (indent + 4) attrs (seq_path current_path i))
                items)
  | Scalar text =>
      if key_eqb tag_eq_str keyword "PixelData" then []
      else if attrs_allow tag_eq_str attrs keyword
           then [elem_line tag_str indent keyword text]
           else []
  end.

(** [visited ds indent path d ds' indent' path']: the call of
    [extract_all_elements] on [ds] with [indent] and [path] reaches, [d]
    sequences down, a call on [ds'] with [indent'] and [path']. *)
Inductive visited (ds : Dataset) (indent : Z) (path : string)
  : nat -> Dataset -> Z -> string -> Prop :=
| visited_here : visited ds indent path 0 ds indent path
| visited_item (d : nat) (ds' : Dataset) (indent' : Z) (path' : string)
    (elem : DataElement) (items : list Dataset) (i : nat)
    (item : Dataset) :
    visited ds indent path d ds' indent' path' ->
    elem ∈ elems ds' ->
    value elem = Sequence items ->
    items !! i = Some item ->
    visited ds indent path (S d) item (indent' + 4)
      (seq_path (current_path tag_str path' (keyword_or_tag elem)) i).

(** The datasets nested in [ds], each with its depth and its dotted path
    as the specification words it: the path of the element that holds
    it, which is the path of the dataset it is in, a dot and the keyword
    (the keyword alone at the top, the display form of the tag for an
    element without keyword), and the index in brackets. *)
Inductive reached (ds : Dataset) : nat -> string -> Dataset -> Prop :=
| reached_top : reached ds 0 "" ds
| reached_item (d : nat) (path : string) (ds' : Dataset)
    (elem : DataElement) (items : list Dataset) (i : nat) (item : Dataset) :
    reached ds d path ds' ->
    elem ∈ elems ds' ->
    value elem = Sequence items ->
    items !! i = Some item ->
    reached ds (S d)
      ((if String.eqb path ""
        then (if String.eqb (keyword elem) ""
              then tag_str (tag elem) else keyword elem)
        else path +:+ "."
             +:+ (if String.eqb (keyword elem) ""
                  then tag_str (tag elem) else keyword elem))
       +:+ "[" +:+ pretty i +:+ "]")
      item.

End WalkerNotions.

(** [Store.represents], one element at a time. *)
Definition elem_matches (h : gmap Store.loc (list Store.HeapElement))
    (elem : DataElement) (he : Store.HeapElement) : Prop :=
  tag elem = Store.h_tag he
  /\ keyword elem = Store.h_keyword he
  /\ name elem = Store.h_name he
  /\ match value elem, Store.h_value he with
     | Scalar s, Store.HScalar s' => s = s'
     | Sequence items, Store.HSequence locs =>
         Forall2 (fun item l => Store.represents h item l = true) items locs
     | _, _ => False
     end.

(** A run that, when it returns, has left every dataset object as it
    was. *)
Definition keeps_datasets {A : Type} (m : Store.Run A) : Prop :=
  forall (h : Store.Heap) (a : A) (h' : Store.Heap),
    m h = Some (a, h') -> Store.datasets h' = Store.datasets h.

(** The store with the list object at [elements] holding [lines]. *)
Definition with_list (h : Store.Heap) (elements : Store.loc)
    (lines : list string) : Store.Heap :=
  Store.mkHeap (Store.datasets h) (<[elements := lines]> (Store.lists h)).

(** ** Induction over nested datasets *)

Section DatasetInduction.

Variable P : Dataset -> Prop.
Hypothesis step :
  forall es : list DataElement,
    Forall (fun elem => Forall P (elem_items elem)) es -> P (mkDataset es).

Fixpoint Dataset_nested_ind (ds : Dataset) : P ds :=
  match ds with
  | mkDataset es =>
      step es
        ((fix over_elems (es : list DataElement)
            : Forall (fun elem => Forall P (elem_items elem)) es :=
            match es with
            | [] => List.Forall_nil _
            | elem :: es' =>
                List.Forall_cons _ elem es'
                  (match elem return Forall P (elem_items elem) with
                   | mkDataElement _ _ _ (Scalar _) => List.Forall_nil _
                   | mkDataElement _ _ _ (Sequence items) =>
                       (fix over_items (l : list Dataset) : Forall P l :=
                          match l with
                          | [] => List.Forall_nil _
                          | item :: l' =>
                              List.Forall_cons _ item l'
                                (Dataset_nested_ind item) (over_items l')
                          end) items
                   end)
                  (over_elems es')
            end) es)
  end.

End DatasetInduction.

(** * Properties *)

(** ** get_image_index *)

Lemma get_image_index_small (depth : nat) (n t : Z) :
  t < n -> get_image_index (S depth) n t = Some t.
Proof.
  intros Hlt. simpl. apply Z.ltb_lt in Hlt. now rewrite Hlt.
Qed.

Lemma get_image_index_step (depth : nat) (n t : Z) :
  n <= t -> get_image_index (S depth) n t = get_image_index depth n (t - n).
Proof.
  intros Hle. simpl. destruct (Z.ltb_spec t n); [lia | reflexivity].
Qed.

(** X3: a call needs one frame more than the quotient of [t] by [n]:
    with [t / n] frames or fewer it does not return, so the depth of the
    recursion grows with [t]. *)
Lemma get_image_index_needs_frames (depth : nat) (n t : Z) :
  0 < n -> 0 <= t -> (depth <= Z.to_nat (t / n))%nat ->
  get_image_index depth n t = None.
Proof.
  intros Hn. revert t.
  induction depth as [|depth IH]; intros t Ht Hd; [reflexivity|].
  destruct (Z.ltb_spec t n) as [Hlt|Hge].
  - rewrite Z.div_small in Hd by lia. simpl in Hd. lia.
  - rewrite get_image_index_step by lia. apply IH; [lia|].
    replace (t - n) with (t + (-1) * n) by lia.
    rewrite Z.div_add by lia.
    assert (1 <= t / n) by (apply Z.div_le_lower_bound; lia). lia.
Qed.

(** X4: with [n <= 0] a call with [n <= t] never returns, whatever the
    number of frames. *)
Lemma get_image_index_diverges (depth : nat) (n t : Z) :
  n <= 0 -> n <= t -> get_image_index depth n t = None.
Proof.
  intros Hn. revert t.
  induction depth as [|depth IH]; intros t Ht; [reflexivity|].
  rewrite get_image_index_step by lia. apply IH. lia.
Qed.

(** C5: for [n > 0] and [t >= 0] the recursion of [get_image_index]
    returns, as soon as it is allowed one frame more than [t / n], and what
    it returns is [t mod n], the value of the direct arithmetic. *)
Theorem get_image_index_is_mod (n t : Z) (depth : nat) :
  0 < n -> 0 <= t -> (Z.to_nat (t / n) < depth)%nat ->
  get_image_index depth n t = Some (image_index_direct n t).
Proof.
  intros Hn. unfold image_index_direct. revert t.
  induction depth as [|depth IH]; intros t Ht Hd; [lia|].
  destruct (Z.ltb_spec t n) as [Hlt|Hge].
  - rewrite get_image_index_small by lia. now rewrite Z.mod_small by lia.
  - rewrite get_image_index_step by lia.
    assert (Hq : (t - n) / n = t / n - 1).
    { replace (t - n) with (t + (-1) * n) by lia.
      rewrite Z.div_add by lia. lia. }
    assert (1 <= t / n) by (apply Z.div_le_lower_bound; lia).
    rewrite IH by lia. f_equal.
    replace (t - n) with (t + (-1) * n) by lia.
    now rewrite Z.mod_add by lia.
Qed.

Lemma get_image_index_is_mod_witness :
  get_image_index 4 3 10 = Some (image_index_direct 3 10).
Proof.
  apply (get_image_index_is_mod 3 10 4); [lia | lia | vm_compute; lia].
Defined.

(** ** ds_to_dict *)

Lemma ds_to_dict_fold (es : list DataElement) :
  ds_to_dict (mkDataset es)
  = foldl (fun out elem => <[name elem := elem_to_value elem]> out) ∅ es.
Proof.
  change (ds_to_dict (mkDataset es))
    with (foldl (fun (out : PyDict) elem =>
                   match value elem with
                   | Sequence items =>
                       <[name elem := PyList (map ds_to_dict items)]> out
                   | Scalar text => <[name elem := PyStr text]> out
                   end) (∅ : PyDict) es).
  generalize (∅ : gmap string PyValue).
  induction es as [|elem es IH]; intros out; [reflexivity|].
  simpl. rewrite IH. f_equal. unfold elem_to_value.
  now destruct (value elem).
Qed.

(** One turn of the loop: the assignment [out[elem.name] = ...]. *)
Lemma ds_to_dict_snoc (es : list DataElement) (elem : DataElement) :
  ds_to_dict (mkDataset (es ++ [elem]))
  = <[name elem := elem_to_value elem]> (ds_to_dict (mkDataset es)).
Proof. rewrite !ds_to_dict_fold. now rewrite foldl_snoc. Qed.

Lemma ds_to_dict_lookup_last (before after : list DataElement)
    (elem : DataElement) :
  Forall (fun later => name later ≠ name elem) after ->
  ds_to_dict (mkDataset (before ++ elem :: after)) !! name elem
  = Some (elem_to_value elem).
Proof.
  induction after as [|later after IH] using rev_ind; intros Hlater.
  - rewrite ds_to_dict_snoc. apply lookup_insert_eq.
  - apply Forall_app in Hlater as [Hafter Hlast].
    apply Forall_cons in Hlast as [Hne _].
    change (before ++ elem :: after ++ [later])
      with (before ++ (elem :: after) ++ [later]).
    rewrite app_assoc, ds_to_dict_snoc, lookup_insert_ne by done.
    now apply IH.
Qed.

(** The keys of the mapping are the display names of the elements. *)
Lemma ds_to_dict_lookup_is_Some (ds : Dataset) (key : string) :
  is_Some (ds_to_dict ds !! key)
  <-> exists elem, elem ∈ elems ds /\ name elem = key.
Proof.
  destruct ds as [es]. cbn [elems].
  induction es as [|elem es IH] using rev_ind.
  - rewrite ds_to_dict_fold. simpl. rewrite lookup_empty. split.
    + intros [? ?]. discriminate.
    + intros (? & Hin & _). now apply elem_of_nil in Hin.
  - rewrite ds_to_dict_snoc. destruct (decide (name elem = key)) as [<-|Hne].
    + rewrite lookup_insert_eq. split; [|eauto].
      intros _. exists elem. split; [|reflexivity].
      apply elem_of_app. right. apply list_elem_of_singleton. reflexivity.
    + rewrite lookup_insert_ne by done. rewrite IH. split.
      * intros (e & Hin & He). exists e. split; [|done].
        apply elem_of_app. now left.
      * intros (e & Hin & He). exists e. split; [|done].
        apply elem_of_app in Hin as [Hin|Hin]; [done|].
        apply list_elem_of_singleton in Hin. congruence.
Qed.

(** C1, as the code has it: in the mapping [ds_to_dict] returns, every
    element that no later element of the dataset shares its display name
    with is stored under that name; a sequence element with k nested
    datasets as a list of length k whose i-th entry is the mapping of the
    i-th nested dataset, any other element as the string form of its
    value. *)
Theorem ds_to_dict_stores_last_named (ds : Dataset)
    (before after : list DataElement) (elem : DataElement) :
  elems ds = before ++ elem :: after ->
  Forall (fun later => name later ≠ name elem) after ->
  match value elem with
  | Sequence items =>
      exists l : list PyDict,
        ds_to_dict ds !! name elem = Some (PyList l)
        /\ List.length l = List.length items
        /\ forall (i : nat) (item : Dataset),
             items !! i = Some item -> l !! i = Some (ds_to_dict item)
  | Scalar text => ds_to_dict ds !! name elem = Some (PyStr text)
  end.
Proof.
  intros Helems Hlater. destruct ds as [es]. simpl in Helems. subst es.
  pose proof (ds_to_dict_lookup_last before after elem Hlater) as Hlook.
  unfold elem_to_value in Hlook.
  destruct (value elem) as [text|items]; [exact Hlook|].
  exists (map ds_to_dict items). split; [exact Hlook|]. split.
  - apply length_map.
  - intros i item Hi. rewrite list_lookup_fmap, Hi. reflexivity.
Qed.

Lemma ds_to_dict_stores_last_named_witness :
  exists l : list PyDict,
    ds_to_dict ds_nested !! "Referenced Series Sequence" = Some (PyList l)
    /\ List.length l = 2%nat
    /\ forall (i : nat) (item : Dataset),
         [ds_flat; ds_item] !! i = Some item ->
         l !! i = Some (ds_to_dict item).
Proof.
  apply (ds_to_dict_stores_last_named ds_nested [modality_CT] [pixel_data]
           referenced_series).
  - reflexivity.
  - repeat constructor. discriminate.
Defined.

(** C1 as the claim states it fails where two elements share a display
    name: the earlier one is not in the mapping. *)
Lemma ds_to_dict_stores_every_element_counterexample :
  ~ (forall (ds : Dataset) (elem : DataElement),
       elem ∈ elems ds ->
       ds_to_dict ds !! name elem = Some (elem_to_value elem)).
Proof.
  intros Hclaim.
  specialize (Hclaim ds_private private_a).
  assert (Hin : private_a ∈ elems ds_private) by (simpl; left).
  specialize (Hclaim Hin). vm_compute in Hclaim. discriminate.
Qed.

(** C6: where several elements share a display name, the mapping holds
    under that name the converted value of the last of them, whatever the
    earlier ones were: each turn of the loop overwrites the entry. *)
Theorem ds_to_dict_last_wins (before between after : list DataElement)
    (earlier last : DataElement) :
  name earlier = name last ->
  Forall (fun later => name later ≠ name last) after ->
  ds_to_dict (mkDataset (before ++ earlier :: between ++ last :: after))
    !! name earlier
  = Some (elem_to_value last).
Proof.
  intros Hname Hafter. rewrite Hname.
  replace (before ++ earlier :: between ++ last :: after)
    with ((before ++ earlier :: between) ++ last :: after)
    by now rewrite <- app_assoc.
  now apply ds_to_dict_lookup_last.
Qed.

Lemma ds_to_dict_last_wins_witness :
  ds_to_dict ds_private !! "Private tag data" = Some (PyStr "b").
Proof.
  apply (ds_to_dict_last_wins [] [] [] private_a private_b).
  - reflexivity.
  - constructor.
Defined.


(** ** Strings and keywords *)

Lemma append_nil_l (x : string) : "" +:+ x = x.
Proof. reflexivity. Qed.

Lemma append_cons (c : ascii) (a b : string) :
  String c a +:+ b = String c (a +:+ b).
Proof. reflexivity. Qed.

Lemma replicate_spaces_inj (m n : nat) (x y : string) :
  x ≠ "" -> y ≠ "" ->
  starts_with_space x = false -> starts_with_space y = false ->
  replicate_string m " " +:+ x = replicate_string n " " +:+ y ->
  x = y.
Proof.
  intros Hx Hy Hsx Hsy. revert n.
  induction m as [|m IH]; intros [|n]; cbn [replicate_string];
    rewrite ?append_nil_l, ?append_cons, ?append_nil_l; intros Heq.
  - exact Heq.
  - rewrite Heq in Hsx. discriminate.
  - rewrite <- Heq in Hsy. discriminate.
  - injection Heq as Heq. now apply IH in Heq.
Qed.

Lemma no_space_prefix_eq (a b x y : string) :
  no_space a = true -> no_space b = true ->
  a +:+ String " " x = b +:+ String " " y -> a = b.
Proof.
  revert b. induction a as [|c a IH]; intros [|c' b];
    rewrite ?append_nil_l, ?append_cons; cbn [no_space]; intros Ha Hb Heq.
  - reflexivity.
  - injection Heq as <- _. discriminate.
  - injection Heq as -> _. discriminate.
  - apply andb_true_iff in Ha as [_ Ha]. apply andb_true_iff in Hb as [_ Hb].
    injection Heq as -> Heq. f_equal. now apply (IH b).
Qed.

Lemma no_space_head (s : string) :
  no_space s = true -> starts_with_space s = false.
Proof.
  destruct s as [|c s]; [reflexivity|]. simpl.
  intros H. apply andb_true_iff in H as [H _]. now apply negb_true_iff in H.
Qed.

Lemma append_not_empty (a b : string) : a ≠ "" -> a +:+ b ≠ "".
Proof. destruct a; [congruence | discriminate]. Qed.

Lemma starts_with_space_append (a b : string) :
  a ≠ "" -> starts_with_space (a +:+ b) = starts_with_space a.
Proof. destruct a; [congruence | reflexivity]. Qed.

Lemma all_keywords_item (ok : string -> bool) (ds : Dataset)
    (elem : DataElement) (items : list Dataset) (i : nat) (item : Dataset) :
  all_keywords ok ds = true ->
  elem ∈ elems ds ->
  value elem = Sequence items ->
  items !! i = Some item ->
  all_keywords ok item = true.
Proof.
  destruct ds as [es]. cbn [all_keywords elems]. intros Hall Hin Hval Hi.
  rewrite forallb_forall in Hall. apply list_elem_of_In in Hin.
  specialize (Hall elem Hin). rewrite Hval in Hall.
  apply andb_true_iff in Hall as [_ Hitems].
  rewrite forallb_forall in Hitems. apply Hitems.
  apply list_elem_of_In. eapply list_elem_of_lookup_2; eauto.
Qed.

Lemma all_keywords_elem (ok : string -> bool) (ds : Dataset)
    (elem : DataElement) :
  all_keywords ok ds = true -> elem ∈ elems ds -> ok (keyword elem) = true.
Proof.
  destruct ds as [es]. cbn [all_keywords elems]. intros Hall Hin.
  rewrite forallb_forall in Hall. apply list_elem_of_In in Hin.
  specialize (Hall elem Hin). now apply andb_true_iff in Hall as [Hok _].
Qed.

(** ** Lists *)

Lemma foldl_concat_map {A B : Type} (f : list B -> A -> list B)
    (g : A -> list B) (l : list A) :
  Forall (fun x => forall acc, f acc x = acc ++ g x) l ->
  forall acc, foldl f acc l = acc ++ concat (map g l).
Proof.
  induction 1 as [|x l Hx _ IH]; intros acc; simpl.
  - now rewrite app_nil_r.
  - now rewrite Hx, IH, <- app_assoc.
Qed.


Lemma imap_map_pointwise {A B C : Type} (h : A -> B) (l : list A) :
  forall (f : nat -> B -> C) (g : nat -> A -> C),
    Forall (fun x => forall i, g i x = f i (h x)) l ->
    imap g l = imap f (map h l).
Proof.
  induction l as [|x l IH]; intros f g Hl; [reflexivity|].
  apply Forall_cons in Hl as [Hx Hl]. simpl. rewrite Hx. f_equal.
  apply IH. eapply Forall_impl; [exact Hl|]. intros y Hy i. apply Hy.
Qed.

(** ** extract_all_elements *)

Section WalkerFacts.

Variable tag_str : N -> string.
Variable tag_eq_str : N -> string -> bool.

#[local] Abbreviation extract := (extract_all_elements tag_str tag_eq_str).
#[local] Abbreviation lines_of := (elem_lines tag_str tag_eq_str).
#[local] Abbreviation cur_path := (current_path tag_str).
#[local] Abbreviation visited := (visited tag_str).

(** The inner loop, over the items of a sequence, started at index [i]. *)
Lemma foldl_enumerate_items (indent : Z) (attrs : option (list string))
    (cur : string) (items : list Dataset) :
  Forall (fun item =>
            forall elements indent path,
              extract item elements indent attrs path
              = elements ++ extract item [] indent attrs path) items ->
  forall (i : nat) (elements : list string),
    foldl_enumerate (fun elements i item =>
        extract item (elements ++ [seq_item_line indent (seq_path cur i)])
          (indent + 4) attrs (seq_path cur i)) i elements items
    = elements
      ++ concat (imap (fun j item =>
                   seq_item_line indent (seq_path cur (i + j))
                   :: extract item [] (indent + 4) attrs
                        (seq_path cur (i + j))) items).
Proof.
  induction 1 as [|item items Hitem _ IH]; intros i elements; simpl.
  - now rewrite app_nil_r.
  - rewrite IH, Hitem, Nat.add_0_r, <- !app_assoc. simpl.
    f_equal. f_equal. f_equal. f_equal.
    apply imap_ext. intros j x _. simpl. now rewrite Nat.add_succ_r.
Qed.

Lemma extract_unfold (es : list DataElement) (elements : list string)
    (indent : Z) (attrs : option (list string)) (path : string) :
  extract (mkDataset es) elements indent attrs path
  = foldl (fun elements elem =>
             let keyword := keyword_or_tag elem in
             let current_path := cur_path path keyword in
             match value elem with
             | Sequence items =>
                 foldl_enumerate (fun elements i item =>
                     let seq_path := seq_path current_path i in
                     extract item
                       (elements ++ [seq_item_line indent seq_path])
                       (indent + 4) attrs seq_path)
                   0%nat elements items
             | Scalar text =>
                 if key_eqb tag_eq_str keyword "PixelData" then elements
                 else if attrs_allow tag_eq_str attrs keyword
                      then elements ++ [elem_line tag_str indent keyword text]
                      else elements
             end) elements es.
Proof. reflexivity. Qed.

(** One turn of the loop appends [elem_lines]. *)
Lemma extract_turn (attrs : option (list string)) (elem : DataElement) :
  Forall (fun item =>
            forall elements indent path,
              extract item elements indent attrs path
              = elements ++ extract item [] indent attrs path)
    (elem_items elem) ->
  forall (elements : list string) (indent : Z) (path : string),
    (let keyword := keyword_or_tag elem in
     let current_path := cur_path path keyword in
     match value elem with
     | Sequence items =>
         foldl_enumerate (fun elements i item =>
             let seq_path := seq_path current_path i in
             extract item
               (elements ++ [seq_item_line indent seq_path])
               (indent + 4) attrs seq_path)
           0%nat elements items
     | Scalar text =>
         if key_eqb tag_eq_str keyword "PixelData" then elements
         else if attrs_allow tag_eq_str attrs keyword
              then elements ++ [elem_line tag_str indent keyword text]
              else elements
     end)
    = elements ++ lines_of indent attrs path elem.
Proof.
  intros Hitems elements indent path. unfold elem_lines, elem_items in *.
  cbv zeta. destruct (value elem) as [text|items].
  - destruct (key_eqb _ _ _); [now rewrite app_nil_r|].
    destruct (attrs_allow _ _ _); [reflexivity | now rewrite app_nil_r].
  - now rewrite foldl_enumerate_items.
Qed.

(** The call appends the lines of its elements, one element after the
    other. *)
Lemma extract_lines (attrs : option (list string)) (ds : Dataset) :
  forall (elements : list string) (indent : Z) (path : string),
    extract ds elements indent attrs path
    = elements ++ concat (map (lines_of indent attrs path) (elems ds)).
Proof.
  induction ds as [es IH] using Dataset_nested_ind.
  assert (Happ : Forall (fun elem =>
            Forall (fun item =>
              forall elements indent path,
                extract item elements indent attrs path
                = elements ++ extract item [] indent attrs path)
              (elem_items elem)) es).
  { eapply Forall_impl; [exact IH|]. intros elem Helem. simpl in Helem.
    eapply Forall_impl; [exact Helem|]. intros item Hitem. simpl in Hitem.
    intros elements indent path.
    rewrite (Hitem elements), (Hitem []). reflexivity. }
  clear IH. intros elements indent path. rewrite extract_unfold.
  cbn [elems]. apply foldl_concat_map.
  eapply Forall_impl; [exact Happ|]. intros elem Helem acc.
  exact (extract_turn attrs elem Helem acc indent path).
Qed.

Lemma extract_app (attrs : option (list string)) (ds : Dataset)
    (elements : list string) (indent : Z) (path : string) :
  extract ds elements indent attrs path
  = elements ++ extract ds [] indent attrs path.
Proof.
  now rewrite (extract_lines attrs ds elements), (extract_lines attrs ds []).
Qed.

(** The lines of the elements before [elem], then those of [elem], then
    those of the elements after it. *)
Lemma extract_split (ds : Dataset) (before after : list DataElement)
    (elem : DataElement) (elements : list string) (indent : Z)
    (attrs : option (list string)) (path : string) :
  elems ds = before ++ elem :: after ->
  extract ds elements indent attrs path
  = extract (mkDataset before) elements indent attrs path
    ++ lines_of indent attrs path elem
    ++ extract (mkDataset after) [] indent attrs path.
Proof.
  intros Helems. rewrite !extract_lines, Helems. cbn [elems].
  rewrite map_app, concat_app. simpl. now rewrite <- app_assoc.
Qed.



Lemma visited_indent (ds : Dataset) (indent : Z) (path : string)
    (d : nat) (ds' : Dataset) (indent' : Z) (path' : string) :
  visited ds indent path d ds' indent' path' ->
  indent' = indent + 4 * Z.of_nat d.
Proof. induction 1; lia. Qed.

Lemma visited_prepend (ds : Dataset) (indent : Z) (path : string)
    (elem : DataElement) (items : list Dataset) (i : nat)
    (item : Dataset) (d : nat) (ds' : Dataset) (indent' : Z)
    (path' : string) :
  elem ∈ elems ds ->
  value elem = Sequence items ->
  items !! i = Some item ->
  visited item (indent + 4)
    (seq_path (cur_path path (keyword_or_tag elem)) i) d ds' indent' path' ->
  visited ds indent path (S d) ds' indent' path'.
Proof.
  intros Hin Hval Hi. induction 1.
  - eapply visited_item; eauto. constructor.
  - eapply visited_item; eauto.
Qed.


Lemma visited_all_keywords (ok : string -> bool) (ds : Dataset)
    (indent : Z) (path : string) (d : nat) (ds' : Dataset) (indent' : Z)
    (path' : string) :
  visited ds indent path d ds' indent' path' ->
  all_keywords ok ds = true -> all_keywords ok ds' = true.
Proof.
  induction 1 as [|d ds' indent' path' elem items i item _ IH Hin Hval Hi];
    intros Hall; [exact Hall|].
  exact (all_keywords_item ok ds' elem items i item (IH Hall) Hin Hval Hi).
Qed.

(** Where a line of the output comes from. *)
Lemma extract_line_origin (attrs : option (list string)) (ds : Dataset) :
  forall (indent : Z) (path line : string),
    line ∈ extract ds [] indent attrs path ->
    exists (d : nat) (ds' : Dataset) (indent' : Z) (path' : string)
           (elem : DataElement),
      visited ds indent path d ds' indent' path'
      /\ elem ∈ elems ds'
      /\ ((exists text,
             value elem = Scalar text
             /\ key_eqb tag_eq_str (keyword_or_tag elem) "PixelData" = false
             /\ attrs_allow tag_eq_str attrs (keyword_or_tag elem) = true
             /\ line = elem_line tag_str indent' (keyword_or_tag elem) text)
          \/ (exists items i item,
                value elem = Sequence items
                /\ items !! i = Some item
                /\ line = seq_item_line indent'
                            (seq_path
                               (cur_path path' (keyword_or_tag elem)) i))).
Proof.
  induction ds as [es IH] using Dataset_nested_ind.
  intros indent path line. rewrite extract_lines. simpl.
  intros Hline. apply list_elem_of_In, in_concat in Hline
    as (block & Hblock & Hline).
  apply in_map_iff in Hblock as (elem & <- & Hin).
  apply list_elem_of_In in Hline, Hin.
  rewrite List.Forall_forall in IH. specialize (IH elem).
  unfold elem_lines, elem_items in *. cbv zeta in Hline.
  destruct (value elem) as [text|items] eqn:Hval.
  - exists 0%nat, (mkDataset es), indent, path, elem.
    split; [constructor|]. split; [exact Hin|]. left. exists text.
    split; [exact Hval|].
    destruct (key_eqb _ _ _); [now apply elem_of_nil in Hline|].
    destruct (attrs_allow _ _ _); [|now apply elem_of_nil in Hline].
    apply list_elem_of_singleton in Hline. auto.
  - apply list_elem_of_In, in_concat in Hline as (block & Hblock & Hline).
    apply list_elem_of_In in Hline, Hblock.
    apply elem_of_lookup_imap in Hblock as (i & item & -> & Hi).
    apply elem_of_cons in Hline as [->|Hline].
    + exists 0%nat, (mkDataset es), indent, path, elem.
      split; [constructor|]. split; [exact Hin|]. right.
      exists items, i, item. auto.
    + assert (Hitem : item ∈ items) by (eapply list_elem_of_lookup_2; eauto).
      assert (Hin' : In elem es) by now apply list_elem_of_In.
      specialize (IH Hin'). rewrite List.Forall_forall in IH.
      apply list_elem_of_In in Hitem.
      destruct (IH item Hitem _ _ _ Hline)
        as (d & ds' & indent' & path' & elem' & Hvis & Hrest).
      exists (S d), ds', indent', path', elem'. split; [|exact Hrest].
      eapply visited_prepend; eauto.
Qed.

Lemma key_text_head (elem : DataElement) :
  (forall t, exists r, tag_str t = String "(" r) ->
  no_space (keyword elem) = true ->
  let text := key_text tag_str (keyword_or_tag elem) in
  text ≠ "" /\ starts_with_space text = false.
Proof.
  intros Htag Hplain. unfold keyword_or_tag.
  destruct (String.eqb_spec (keyword elem) "") as [Hempty|Hfull];
    cbn [key_text].
  - destruct (Htag (tag elem)) as [r ->]. split; [discriminate|reflexivity].
  - split; [exact Hfull | now apply no_space_head].
Qed.

Lemma spaces_blanks (indent : Z) :
  spaces indent = string_of_list_ascii (repeat " "%char (Z.to_nat indent)).
Proof.
  unfold spaces. induction (Z.to_nat indent) as [|n IH]; [reflexivity|].
  cbn [replicate_string repeat string_of_list_ascii].
  now rewrite append_cons, append_nil_l, IH.
Qed.

Lemma key_text_spelled (elem : DataElement) :
  key_text tag_str (keyword_or_tag elem)
  = if String.eqb (keyword elem) "" then tag_str (tag elem)
    else keyword elem.
Proof. unfold keyword_or_tag. now destruct (String.eqb (keyword elem) ""). Qed.

Lemma key_eqb_spelled (elem : DataElement) (s : string) :
  key_eqb tag_eq_str (keyword_or_tag elem) s
  = if String.eqb (keyword elem) "" then tag_eq_str (tag elem) s
    else String.eqb (keyword elem) s.
Proof. unfold keyword_or_tag. now destruct (String.eqb (keyword elem) ""). Qed.

Lemma seq_path_spelled (path : string) (elem : DataElement) (i : nat) :
  seq_path (cur_path path (keyword_or_tag elem)) i
  = (if String.eqb path ""
     then (if String.eqb (keyword elem) ""
           then tag_str (tag elem) else keyword elem)
     else path +:+ "."
          +:+ (if String.eqb (keyword elem) ""
               then tag_str (tag elem) else keyword elem))
    +:+ "[" +:+ pretty i +:+ "]".
Proof.
  unfold seq_path, current_path. now rewrite key_text_spelled.
Qed.

Lemma visited_reached (ds : Dataset) (d : nat) (ds' : Dataset)
    (indent indent' : Z) (path' : string) :
  visited ds indent "" d ds' indent' path' -> reached tag_str ds d path' ds'.
Proof.
  induction 1 as [|d ds' indent' path' elem items i item _ IH Hin Hval Hi];
    [constructor|].
  rewrite seq_path_spelled. eapply reached_item; eauto.
Qed.

(** C4: started at indent 0, every line of the output is the line of an
    element of a dataset nested [d] sequences deep and is [4 * d] blank
    characters followed by the text for that element: keyword, [" --> "]
    and value, or ["[Sequence Item] "], the dotted path of the element
    and the index of the item in brackets.  The text opens with no
    further blank where the keywords of the dataset have none and the
    display form of a tag opens with a parenthesis.  And a sequence
    element puts, for its nested datasets in order, the line
    ["[Sequence Item] <path>[<i>]"] behind as many blanks as the
    indentation of the element, and after each such line the lines of the
    call on the i-th dataset with that path and that indentation plus
    4. *)
Theorem indentation_follows_depth (ds : Dataset)
    (attrs : option (list string)) :
  (forall line : string,
     line ∈ extract ds [] 0 attrs "" ->
     exists (d : nat) (path' : string) (ds' : Dataset)
            (elem : DataElement) (rest : string),
       reached tag_str ds d path' ds'
       /\ elem ∈ elems ds'
       /\ line = string_of_list_ascii (repeat " "%char (4 * d)) +:+ rest
       /\ ((exists text,
              value elem = Scalar text
              /\ rest = (if String.eqb (keyword elem) ""
                         then tag_str (tag elem) else keyword elem)
                        +:+ " --> " +:+ text)
           \/ (exists items i item,
                 value elem = Sequence items
                 /\ items !! i = Some item
                 /\ rest = "[Sequence Item] "
                           +:+ (if String.eqb path' ""
                                then (if String.eqb (keyword elem) ""
                                      then tag_str (tag elem)
                                      else keyword elem)
                                else path' +:+ "."
                                     +:+ (if String.eqb (keyword elem) ""
                                          then tag_str (tag elem)
                                          else keyword elem))
                           +:+ "[" +:+ pretty i +:+ "]"))
       /\ ((forall t, exists r, tag_str t = String "(" r) ->
           all_keywords no_space ds = true ->
           forall tail : string, rest <> String " " tail))
  /\ (forall (elements : list string) (indent : Z) (path : string)
             (before after : list DataElement) (elem : DataElement)
             (items : list Dataset),
        elems ds = before ++ elem :: after ->
        value elem = Sequence items ->
        let kw := if String.eqb (keyword elem) "" then tag_str (tag elem)
                  else keyword elem in
        let cur := if String.eqb path "" then kw else path +:+ "." +:+ kw in
        extract ds elements indent attrs path
        = extract (mkDataset before) elements indent attrs path
          ++ concat (imap (fun i item =>
                             (string_of_list_ascii
                                (repeat " "%char (Z.to_nat indent))
                              +:+ "[Sequence Item] "
                              +:+ cur +:+ "[" +:+ pretty i +:+ "]")
                             :: extract item [] (indent + 4) attrs
                                  (cur +:+ "[" +:+ pretty i +:+ "]"))
                       items)
          ++ extract (mkDataset after) [] indent attrs path).
Proof.
  split.
  - intros line Hline.
    destruct (extract_line_origin attrs ds 0 "" line Hline)
      as (d & ds' & indent' & path' & elem & Hvis & Hin & Hshape).
    pose proof (visited_indent _ _ _ _ _ _ _ Hvis) as Hindent.
    pose proof (visited_reached _ _ _ _ _ _ Hvis) as Hreach.
    assert (Hblanks : spaces indent'
                      = string_of_list_ascii (repeat " "%char (4 * d))).
    { rewrite spaces_blanks. do 2 f_equal. lia. }
    exists d, path', ds', elem.
    destruct Hshape as [(text & Hval & _ & _ & ->)
                       |(items & i & item & Hval & Hi & ->)].
    + eexists. split; [exact Hreach|]. split; [exact Hin|].
      unfold elem_line. rewrite Hblanks, key_text_spelled.
      split; [reflexivity|]. split; [left; eauto|].
      intros Htag Hplain tail Htail.
      pose proof (visited_all_keywords _ _ _ _ _ _ _ _ Hvis Hplain)
        as Hplain'.
      pose proof (all_keywords_elem _ _ _ Hplain' Hin) as Hkw.
      destruct (key_text_head elem Htag Hkw) as [Hne Hhead].
      rewrite key_text_spelled in Hne, Hhead.
      pose proof (starts_with_space_append _ (" --> " +:+ text) Hne) as Hs.
      rewrite Htail, Hhead in Hs. discriminate.
    + eexists. split; [exact Hreach|]. split; [exact Hin|].
      unfold seq_item_line. rewrite Hblanks, seq_path_spelled.
      split; [reflexivity|]. split; [|discriminate]. right.
      exists items, i, item. eauto.
  - intros elements indent path before after elem items Helems Hval kw cur.
    rewrite (extract_split ds before after elem) by exact Helems.
    unfold elem_lines. cbv zeta. rewrite Hval.
    f_equal. f_equal. f_equal. apply imap_ext. intros i item _. cbn beta.
    unfold seq_item_line. now rewrite spaces_blanks, seq_path_spelled.
Qed.

(** C10: for an element whose keyword is empty the display form of its
    tag stands where the keyword would: in the dotted path, which a
    sequence element hands to its ["[Sequence Item]"] lines and to the
    calls on its items, and in the ["<keyword> --> <value>"] line of a
    non-sequence element (emitted when the tag does not compare equal
    to ["PixelData"] and the filter, if there is one, holds a string the
    tag compares equal to). *)
Theorem keywordless_element_uses_tag (ds : Dataset)
    (before after : list DataElement) (elem : DataElement)
    (elements : list string) (indent : Z) (attrs : option (list string))
    (path : string) :
  elems ds = before ++ elem :: after ->
  keyword elem = "" ->
  let cur := if String.eqb path "" then tag_str (tag elem)
             else path +:+ "." +:+ tag_str (tag elem) in
  match value elem with
  | Scalar text =>
      tag_eq_str (tag elem) "PixelData" = false ->
      match attrs with
      | None => True
      | Some l => existsb (tag_eq_str (tag elem)) l = true
      end ->
      extract ds elements indent attrs path
      = extract (mkDataset before) elements indent attrs path
        ++ (spaces indent +:+ tag_str (tag elem) +:+ " --> " +:+ text)
           :: extract (mkDataset after) [] indent attrs path
  | Sequence items =>
      extract ds elements indent attrs path
      = extract (mkDataset before) elements indent attrs path
        ++ concat (imap (fun i item =>
                           (spaces indent +:+ "[Sequence Item] "
                            +:+ cur +:+ "[" +:+ pretty i +:+ "]")
                           :: extract item [] (indent + 4) attrs
                                (cur +:+ "[" +:+ pretty i +:+ "]"))
                     items)
        ++ extract (mkDataset after) [] indent attrs path
  end.
Proof.
  intros Helems Hkw cur.
  rewrite (extract_split ds before after elem) by exact Helems.
  assert (Hkey : keyword_or_tag elem = KeyTag (tag elem))
    by (unfold keyword_or_tag; now rewrite Hkw).
  unfold elem_lines. cbv zeta. rewrite Hkey.
  destruct (value elem) as [text|items].
  - intros Hpixel Hattrs. cbn [key_eqb]. rewrite Hpixel.
    assert (attrs_allow tag_eq_str attrs (KeyTag (tag elem)) = true) as ->
      by (destruct attrs; [exact Hattrs | reflexivity]).
    reflexivity.
  - reflexivity.
Qed.
Lemma keyword_pixel_data_key (elem : DataElement) :
  String.eqb (keyword elem) "PixelData" = true ->
  key_eqb tag_eq_str (keyword_or_tag elem) "PixelData" = true.
Proof.
  intros H. unfold keyword_or_tag. apply String.eqb_eq in H. rewrite H.
  reflexivity.
Qed.

(** The output is the one for the dataset with the elements of keyword
    ["PixelData"] taken out at every depth, in which none is left. *)
Lemma extract_without_pixel_data (ds : Dataset) :
  (forall (elements : list string) (indent : Z)
          (attrs : option (list string)) (path : string),
     extract ds elements indent attrs path
     = extract (without_pixel_data ds) elements indent attrs path)
  /\ has_pixel_data (without_pixel_data ds) = false.
Proof.
  induction ds as [es IH] using Dataset_nested_ind. split.
  - intros elements indent attrs path. rewrite !extract_lines. f_equal.
    cbn [elems without_pixel_data]. clear elements.
    induction IH as [|elem es Helem _ IHes]; [reflexivity|].
    cbn [map concat foldr]. rewrite IHes.
    unfold elem_items in Helem.
    destruct (value elem) as [text|items] eqn:Hval.
    + destruct (String.eqb (keyword elem) "PixelData") eqn:Hkw.
      * unfold elem_lines at 1. cbv zeta. rewrite Hval.
        now rewrite (keyword_pixel_data_key elem Hkw).
      * reflexivity.
    + cbn [map concat]. f_equal.
      unfold elem_lines, keyword_or_tag. cbv zeta. cbn [value keyword tag].
      rewrite Hval. f_equal.
      apply imap_map_pointwise.
      eapply Forall_impl; [exact Helem|]. intros item [Hitem _] i.
      simpl. now rewrite <- Hitem.
  - cbn [without_pixel_data has_pixel_data elems].
    induction IH as [|elem es Helem _ IHes]; [reflexivity|].
    cbn [foldr]. unfold elem_items in Helem.
    destruct (value elem) as [text|items] eqn:Hval.
    + destruct (String.eqb (keyword elem) "PixelData") eqn:Hkw;
        [exact IHes|].
      cbn [existsb]. rewrite Hval, IHes. cbv beta iota. now rewrite Hkw.
    + cbn [existsb value]. rewrite IHes, orb_false_r. clear Hval IHes.
      induction Helem as [|item items [_ Hitem] _ IHitems];
        [reflexivity|].
      cbn [map existsb]. now rewrite Hitem, IHitems.
Qed.

Lemma key_text_not_pixel_data (elem : DataElement) (x y : string) :
  (forall t, exists r, tag_str t = String "(" r) ->
  no_space (keyword elem) = true ->
  key_eqb tag_eq_str (keyword_or_tag elem) "PixelData" = false ->
  let text := key_text tag_str (keyword_or_tag elem) in
  text ≠ "" /\ starts_with_space text = false
  /\ text +:+ " --> " +:+ x ≠ "PixelData" +:+ " --> " +:+ y.
Proof.
  intros Htag Hplain. unfold keyword_or_tag.
  destruct (String.eqb_spec (keyword elem) "") as [Hempty|Hfull];
    cbn [key_eqb key_text]; intros Hpixel.
  - destruct (Htag (tag elem)) as [r ->]. repeat split; discriminate.
  - split; [exact Hfull|]. split; [now apply no_space_head|].
    intros Heq. apply no_space_prefix_eq in Heq; [|exact Hplain|reflexivity].
    rewrite Heq in Hpixel. discriminate.
Qed.

(** C3: under every filter, also one that holds ["PixelData"], no line
    of the output is there for an element of that keyword: every line
    is the ["[Sequence Item]"] line of a sequence element or the line of
    a non-sequence element whose keyword is not ["PixelData"]; and where
    the keywords of the dataset are free of blanks, as those of the
    DICOM dictionary are, and the display form of a tag opens with a
    parenthesis, no line reads ["PixelData --> ..."] at any
    indentation. *)
Theorem pixel_data_never_emitted (ds : Dataset) (elements : list string)
    (indent : Z) (attrs : option (list string)) (path : string) :
  exists new : list string,
    extract ds elements indent attrs path = elements ++ new
    /\ (forall line : string,
          line ∈ new ->
          exists (d : nat) (ds' : Dataset) (indent' : Z) (path' : string)
                 (elem : DataElement),
            visited ds indent path d ds' indent' path'
            /\ elem ∈ elems ds'
            /\ ((exists text,
                   value elem = Scalar text
                   /\ keyword elem ≠ "PixelData"
                   /\ line = spaces indent'
                             +:+ key_text tag_str (keyword_or_tag elem)
                             +:+ " --> " +:+ text)
                \/ (exists items i item,
                      value elem = Sequence items
                      /\ items !! i = Some item
                      /\ line = spaces indent' +:+ "[Sequence Item] "
                                +:+ seq_path
                                      (cur_path path' (keyword_or_tag elem))
                                      i)))
    /\ ((forall t, exists r, tag_str t = String "(" r) ->
        all_keywords no_space ds = true ->
        forall (line : string) (n : Z) (v : string),
          line ∈ new ->
          line ≠ spaces n +:+ "PixelData" +:+ " --> " +:+ v).
Proof.
  exists (extract ds [] indent attrs path).
  split; [apply extract_app|]. split.
  - intros line Hline.
    destruct (extract_line_origin attrs ds indent path line Hline)
      as (d & ds' & indent' & path' & elem & Hvis & Hin & Hshape).
    exists d, ds', indent', path', elem. split; [exact Hvis|].
    split; [exact Hin|].
    destruct Hshape as [(text & Hval & Hpixel & _ & ->)|Hseq];
      [left | right; exact Hseq].
    exists text. split; [exact Hval|]. split; [|reflexivity].
    intros Hkw. unfold keyword_or_tag in Hpixel. rewrite Hkw in Hpixel.
    discriminate.
  - intros Htag Hplain line n v Hline Heq.
    destruct (extract_line_origin attrs ds indent path line Hline)
      as (d & ds' & indent' & path' & elem & Hvis & Hin & Hshape).
    pose proof (visited_all_keywords _ _ _ _ _ _ _ _ Hvis Hplain) as Hplain'.
    pose proof (all_keywords_elem _ _ _ Hplain' Hin) as Hkw.
    destruct Hshape as [(text & Hval & Hpixel & _ & ->)
                       |(items & i & item & _ & _ & ->)].
    + destruct (key_text_not_pixel_data elem text v Htag Hkw Hpixel)
        as (Hne & Hhead & Hdiff).
      apply Hdiff. unfold elem_line, spaces in Heq.
      apply replicate_spaces_inj in Heq; try done.
      * now apply append_not_empty.
      * now rewrite starts_with_space_append.
    + unfold seq_item_line, spaces in Heq.
      apply replicate_spaces_inj in Heq; try done.
Qed.

(** A non-sequence element the filter lets through puts its line between
    the lines of the elements before it and those of the elements after
    it. *)
Lemma extract_leaf_allowed (ds : Dataset) (before after : list DataElement)
    (elem : DataElement) (text : string) (elements : list string)
    (indent : Z) (attrs : option (list string)) (path : string) :
  elems ds = before ++ elem :: after ->
  value elem = Scalar text ->
  key_eqb tag_eq_str (keyword_or_tag elem) "PixelData" = false ->
  extract ds elements indent attrs path
  = extract (mkDataset before) elements indent attrs path
    ++ (if attrs_allow tag_eq_str attrs (keyword_or_tag elem)
        then [elem_line tag_str indent (keyword_or_tag elem) text]
        else [])
    ++ extract (mkDataset after) [] indent attrs path.
Proof.
  intros Helems Hval Hpixel.
  rewrite (extract_split ds before after elem) by exact Helems.
  unfold elem_lines. cbv zeta. now rewrite Hval, Hpixel.
Qed.

(** C2, as the code has it: with no filter ([attrs] is [None]) a
    non-sequence element that is not ["PixelData"] always gets its line,
    the blanks of the indentation, the keyword, [" --> "] and the value;
    under a filter it gets the line when the filter holds its keyword,
    and the line is left out only under a filter that does not hold
    it. *)
Theorem absent_filter_restricts_nothing (ds : Dataset)
    (before after : list DataElement) (elem : DataElement) (text : string)
    (elements : list string) (indent : Z) (path : string) :
  elems ds = before ++ elem :: after ->
  value elem = Scalar text ->
  (if String.eqb (keyword elem) "" then tag_eq_str (tag elem) "PixelData"
   else String.eqb (keyword elem) "PixelData") = false ->
  let line :=
    string_of_list_ascii (repeat " "%char (Z.to_nat indent))
    +:+ (if String.eqb (keyword elem) "" then tag_str (tag elem)
         else keyword elem)
    +:+ " --> " +:+ text in
  let in_filter (l : list string) :=
    existsb (fun a => if String.eqb (keyword elem) ""
                      then tag_eq_str (tag elem) a
                      else String.eqb (keyword elem) a) l in
  extract ds elements indent None path
  = extract (mkDataset before) elements indent None path
    ++ line :: extract (mkDataset after) [] indent None path
  /\ (forall l : list string,
        in_filter l = true ->
        extract ds elements indent (Some l) path
        = extract (mkDataset before) elements indent (Some l) path
          ++ line :: extract (mkDataset after) [] indent (Some l) path)
  /\ (forall l : list string,
        extract ds elements indent (Some l) path
        = extract (mkDataset before) elements indent (Some l) path
          ++ extract (mkDataset after) [] indent (Some l) path ->
        in_filter l = false).
Proof.
  intros Helems Hval Hpixel line in_filter.
  rewrite <- key_eqb_spelled in Hpixel.
  assert (Hline : elem_line tag_str indent (keyword_or_tag elem) text = line).
  { unfold elem_line, line. now rewrite spaces_blanks, key_text_spelled. }
  assert (Hfilter : forall l,
            existsb (key_eqb tag_eq_str (keyword_or_tag elem)) l
            = in_filter l).
  { intros l. unfold in_filter. induction l as [|a l IH]; [reflexivity|].
    cbn [existsb]. now rewrite IH, key_eqb_spelled. }
  split; [|split].
  - rewrite (extract_leaf_allowed ds before after elem text)
      by assumption.
    cbn [attrs_allow]. now rewrite Hline.
  - intros l Hin.
    rewrite (extract_leaf_allowed ds before after elem text)
      by assumption.
    cbn [attrs_allow]. now rewrite Hfilter, Hin, Hline.
  - intros l.
    rewrite (extract_leaf_allowed ds before after elem text)
      by assumption.
    cbn [attrs_allow]. rewrite Hfilter.
    destruct (in_filter l); [|reflexivity].
    intros Heq. apply (f_equal (@List.length string)) in Heq.
    rewrite !length_app in Heq. simpl in Heq. lia.
Qed.

End WalkerFacts.

(** ** The walker over the object store *)

Lemma represents_unfold (h : gmap Store.loc (list Store.HeapElement))
    (es : list DataElement) (l : Store.loc) :
  Store.represents h (mkDataset es) l = true
  <-> exists hes, h !! l = Some hes /\ Forall2 (elem_matches h) es hes.
Proof.
  cbn [Store.represents elems]. destruct (h !! l) as [hes|]; cycle 1.
  { split; [discriminate|]. intros (? & ? & _). discriminate. }
  transitivity (Forall2 (elem_matches h) es hes); cycle 1.
  { split; [eauto|]. intros (? & [= <-] & ?). assumption. }
  revert hes. induction es as [|e es IH]; intros [|he hes].
  - split; [constructor | reflexivity].
  - split; [discriminate | inversion 1].
  - split; [discriminate | inversion 1].
  - rewrite Forall2_cons, <- IH. rewrite !andb_true_iff.
    unfold elem_matches. rewrite N.eqb_eq, !String.eqb_eq.
    assert (Hval :
      match value e, Store.h_value he with
      | Scalar s, Store.HScalar s' => String.eqb s s'
      | Sequence items, Store.HSequence locs =>
          (fix items_match (items : list Dataset) (locs : list Store.loc)
             : bool :=
             match items, locs with
             | [], [] => true
             | item :: items', l' :: locs' =>
                 Store.represents h item l' && items_match items' locs'
             | _, _ => false
             end) items locs
      | _, _ => false
      end = true
      <-> match value e, Store.h_value he with
          | Scalar s, Store.HScalar s' => s = s'
          | Sequence items, Store.HSequence locs =>
              Forall2 (fun item l => Store.represents h item l = true)
                items locs
          | _, _ => False
          end).
    { destruct (value e) as [s|items], (Store.h_value he) as [s'|locs];
        try (split; [discriminate | contradiction]).
      - apply String.eqb_eq.
      - revert locs. induction items as [|item items IHi]; intros [|l' locs].
        + split; [constructor | reflexivity].
        + split; [discriminate | inversion 1].
        + split; [discriminate | inversion 1].
        + rewrite Forall2_cons, <- IHi, andb_true_iff. reflexivity. }
    rewrite <- Hval. tauto.
Qed.

Lemma height_items (es : list DataElement) (fuel : nat) :
  (height (mkDataset es) <= S fuel)%nat ->
  Forall (fun elem => Forall (fun item => (height item <= fuel)%nat)
                        (elem_items elem)) es.
Proof.
  cbn [height elems]. intros H. apply le_S_n in H. revert H.
  induction es as [|elem es IH]; intros H; [constructor|].
  cbn [foldr] in H. constructor.
  - unfold elem_items. destruct (value elem) as [text|items]; [constructor|].
    assert (Hitems : (foldr (fun item acc' => Nat.max (height item) acc')
                        0%nat items <= fuel)%nat) by lia.
    clear H IH. induction items as [|item items IHi]; [constructor|].
    cbn [foldr] in Hitems. constructor; [lia | apply IHi; lia].
  - apply IH. destruct (value elem); lia.
Qed.

Lemma for_list_ds_to_dict (fuel : nat) (h : Store.Heap) (items : list Dataset) :
  Forall (fun item =>
            forall l, Store.represents (Store.datasets h) item l = true ->
                      Store.ds_to_dict fuel l h = Some (ds_to_dict item, h))
    items ->
  forall locs,
    Forall2 (fun item l => Store.represents (Store.datasets h) item l = true)
      items locs ->
    Store.for_list (Store.ds_to_dict fuel) locs h
    = Some (map ds_to_dict items, h).
Proof.
  induction 1 as [|item items Hitem _ IH]; intros locs Hlocs;
    inversion Hlocs as [|? l ? locs' Hl Hlocs']; subst; [reflexivity|].
  cbn [Store.for_list]. unfold mbind, Store.Run_bind at 1.
  rewrite (Hitem l Hl). unfold mbind, Store.Run_bind at 1.
  change ((fix go (l0 : list Store.loc) : Store.Run (list PyDict) :=
             match l0 with
             | [] => mret []
             | x :: l' =>
                 Store.ds_to_dict fuel x ≫= fun y =>
                 go l' ≫= fun ys => mret (y :: ys)
             end) locs')
    with (Store.for_list (Store.ds_to_dict fuel) locs').
  now rewrite (IH locs' Hlocs').
Qed.

(** On a dataset object with the structure of a tree, the run over the
    store returns what [Store.ds_to_dict] gives for the tree, and the store as
    it was. *)
Lemma ds_to_dict_refines (t : Dataset) :
  forall (fuel : nat) (h : Store.Heap) (l : Store.loc),
    Store.represents (Store.datasets h) t l = true ->
    (height t <= fuel)%nat ->
    Store.ds_to_dict fuel l h = Some (ds_to_dict t, h).
Proof.
  induction t as [es IH] using Dataset_nested_ind.
  intros fuel h l Hrep Hfuel.
  destruct fuel as [|fuel]; [cbn [height] in Hfuel; lia|].
  apply represents_unfold in Hrep as (hes & Hl & Hes).
  pose proof (height_items es fuel Hfuel) as Hheights.
  cbn [Store.ds_to_dict].
  unfold mbind, Store.Run_bind at 1, Store.get_dataset. rewrite Hl.
  rewrite ds_to_dict_fold.
  clear Hl Hfuel. revert IH Hheights.
  generalize (∅ : gmap string PyValue) as out.
  induction Hes as [|elem he es hes Hmatch _ IHes]; intros out IH Hheights.
  - reflexivity.
  - apply Forall_cons in IH as [IHelem IH].
    apply Forall_cons in Hheights as [Hhe Hheights].
    specialize (fun out => IHes out IH Hheights).
    destruct Hmatch as (_ & _ & Hname & Hval).
    cbn [Store.for_fold foldl]. unfold mbind, Store.Run_bind at 1.
    unfold elem_to_value, elem_items in *.
    destruct (value elem) as [text|items], (Store.h_value he) as [text'|locs];
      try contradiction.
    + subst text'. unfold mret, Store.Run_ret at 1. rewrite <- Hname.
      apply IHes.
    + unfold mbind, Store.Run_bind at 1.
      rewrite (for_list_ds_to_dict fuel h items); [|
        |exact Hval].
      * unfold mret, Store.Run_ret at 1. rewrite <- Hname. apply IHes.
      * rewrite Forall_forall in IHelem, Hhe |- *.
        intros item Hitem l' Hl'. apply IHelem; auto.
Qed.

Lemma list_append_with_list (h : Store.Heap) (elements : Store.loc)
    (lines : list string) (line : string) :
  Store.list_append elements line (with_list h elements lines)
  = Some (tt, with_list h elements (lines ++ [line])).
Proof.
  unfold Store.list_append, with_list. cbn [Store.lists Store.datasets].
  now rewrite lookup_insert_eq, insert_insert_eq.
Qed.

Lemma with_list_id (h : Store.Heap) (elements : Store.loc) (old : list string) :
  Store.lists h !! elements = Some old -> with_list h elements old = h.
Proof.
  intros Hold. unfold with_list. rewrite insert_id by exact Hold.
  now destruct h.
Qed.

Section StoreWalkerFacts.

Variable tag_str : N -> string.
Variable tag_eq_str : N -> string -> bool.

#[local] Abbreviation run_extract :=
  (Store.extract_all_elements tag_str tag_eq_str).
#[local] Abbreviation extract :=
  (extract_all_elements tag_str tag_eq_str).

Lemma for_enumerate_extract (fuel : nat) (h : Store.Heap) (elements : Store.loc)
    (indent : Z) (attrs : option (list string)) (cur : string)
    (items : list Dataset) :
  Forall (fun item =>
            forall l lines indent path,
              Store.represents (Store.datasets h) item l = true ->
              run_extract fuel l elements indent attrs path
                (with_list h elements lines)
              = Some (tt, with_list h elements
                            (extract item lines indent attrs path)))
    items ->
  forall locs,
    Forall2 (fun item l => Store.represents (Store.datasets h) item l = true)
      items locs ->
    forall (i : nat) (lines : list string),
      Store.for_enumerate (fun i item =>
          Store.list_append elements (seq_item_line indent (seq_path cur i))
          ≫= fun _ =>
          run_extract fuel item elements (indent + 4) attrs
            (seq_path cur i)) i locs (with_list h elements lines)
      = Some (tt, with_list h elements
                    (foldl_enumerate (fun lines i item =>
                         extract item
                           (lines ++ [seq_item_line indent (seq_path cur i)])
                           (indent + 4) attrs (seq_path cur i))
                       i lines items)).
Proof.
  induction 1 as [|item items Hitem _ IH]; intros locs Hlocs;
    inversion Hlocs as [|? l ? locs' Hl Hlocs']; subst; intros i lines;
    [reflexivity|].
  cbn [Store.for_enumerate foldl_enumerate].
  unfold mbind at 1, Store.Run_bind at 1.
  unfold mbind at 1, Store.Run_bind at 1.
  rewrite list_append_with_list. rewrite (Hitem l _ _ _ Hl).
  apply (IH locs' Hlocs').
Qed.

(** On a dataset object with the structure of a tree, the run over the
    store returns, leaves the dataset objects as they were, and has
    appended to the list object what [extract_all_elements] appends for
    the tree. *)
Lemma extract_all_elements_refines (attrs : option (list string))
    (t : Dataset) :
  forall (fuel : nat) (h : Store.Heap) (l elements : Store.loc)
         (lines : list string) (indent : Z) (path : string),
    Store.represents (Store.datasets h) t l = true ->
    (height t <= fuel)%nat ->
    run_extract fuel l elements indent attrs path
      (with_list h elements lines)
    = Some (tt, with_list h elements (extract t lines indent attrs path)).
Proof.
  induction t as [es IH] using Dataset_nested_ind.
  intros fuel h l elements lines indent path Hrep Hfuel.
  destruct fuel as [|fuel]; [cbn [height] in Hfuel; lia|].
  apply represents_unfold in Hrep as (hes & Hl & Hes).
  pose proof (height_items es fuel Hfuel) as Hheights.
  cbn [Store.extract_all_elements].
  unfold mbind at 1, Store.Run_bind at 1, Store.get_dataset.
  cbn [Store.datasets with_list]. rewrite Hl.
  change (Store.mkHeap (Store.datasets h)
            (<[elements := lines]> (Store.lists h)))
    with (with_list h elements lines).
  rewrite extract_unfold.
  clear Hl Hfuel. revert IH Hheights lines.
  induction Hes as [|elem he es hes Hmatch _ IHes];
    intros IH Hheights lines.
  - reflexivity.
  - apply Forall_cons in IH as [IHelem IH].
    apply Forall_cons in Hheights as [Hhe Hheights].
    specialize (IHes IH Hheights).
    destruct Hmatch as (Htag & Hkw & _ & Hval).
    cbn [Store.for_each foldl]. unfold mbind at 1, Store.Run_bind at 1.
    assert (Hkey : Store.keyword_or_tag he = keyword_or_tag elem)
      by (unfold Store.keyword_or_tag, keyword_or_tag;
          now rewrite Htag, Hkw).
    cbv zeta. rewrite Hkey. unfold elem_items in *.
    destruct (value elem) as [text|items], (Store.h_value he) as [text'|locs];
      try contradiction.
    + subst text'.
      destruct (key_eqb tag_eq_str _ "PixelData"); [apply IHes|].
      destruct (attrs_allow tag_eq_str attrs _); [|apply IHes].
      rewrite list_append_with_list. apply IHes.
    + rewrite (for_enumerate_extract fuel h elements indent attrs _ items)
        with (locs := locs); [apply IHes| |exact Hval].
      rewrite Forall_forall in IHelem, Hhe |- *.
      intros item Hitem l' lines' indent' path' Hl'.
      apply IHelem; auto.
Qed.

End StoreWalkerFacts.

(** Runs that leave the dataset objects as they are. *)
Lemma bind_keeps_datasets {A B : Type} (m : Store.Run A)
    (f : A -> Store.Run B) :
  keeps_datasets m -> (forall a, keeps_datasets (f a)) ->
  keeps_datasets (m ≫= f).
Proof.
  intros Hm Hf h b h'. unfold mbind, Store.Run_bind.
  destruct (m h) as [[a h1]|] eqn:Hrun; [|discriminate].
  intros Hrun'. rewrite (Hf _ _ _ _ Hrun'). eapply Hm; eauto.
Qed.

Lemma ret_keeps_datasets {A : Type} (a : A) :
  keeps_datasets (mret a : Store.Run A).
Proof. intros h b h'. unfold mret, Store.Run_ret. now intros [= _ <-]. Qed.

Lemma get_dataset_keeps_datasets (l : Store.loc) :
  keeps_datasets (Store.get_dataset l).
Proof.
  intros h es h'. unfold Store.get_dataset.
  destruct (Store.datasets h !! l); [|discriminate].
  now intros [= _ <-].
Qed.

Lemma list_append_keeps_datasets (elements : Store.loc) (line : string) :
  keeps_datasets (Store.list_append elements line).
Proof.
  intros h u h'. unfold Store.list_append.
  destruct (Store.lists h !! elements); [|discriminate].
  now intros [= _ <-].
Qed.

Lemma for_list_keeps_datasets {A B : Type} (f : A -> Store.Run B)
    (l : list A) :
  (forall x, keeps_datasets (f x)) -> keeps_datasets (Store.for_list f l).
Proof.
  intros Hf. induction l as [|x l IH]; cbn [Store.for_list].
  - apply ret_keeps_datasets.
  - apply bind_keeps_datasets; [apply Hf|]. intros y.
    apply bind_keeps_datasets; [exact IH|]. intros ys.
    apply ret_keeps_datasets.
Qed.

Lemma for_fold_keeps_datasets {A B : Type} (body : B -> A -> Store.Run B)
    (l : list A) :
  (forall acc x, keeps_datasets (body acc x)) ->
  forall acc, keeps_datasets (Store.for_fold body acc l).
Proof.
  intros Hbody. induction l as [|x l IH]; intros acc; cbn [Store.for_fold].
  - apply ret_keeps_datasets.
  - apply bind_keeps_datasets; [apply Hbody|]. intros acc'. apply IH.
Qed.

Lemma for_each_keeps_datasets {A : Type} (body : A -> Store.Run unit)
    (l : list A) :
  (forall x, keeps_datasets (body x)) ->
  keeps_datasets (Store.for_each body l).
Proof.
  intros Hbody. induction l as [|x l IH]; cbn [Store.for_each].
  - apply ret_keeps_datasets.
  - apply bind_keeps_datasets; [apply Hbody|]. intros _. apply IH.
Qed.

Lemma for_enumerate_keeps_datasets {A : Type}
    (body : nat -> A -> Store.Run unit) (l : list A) :
  (forall i x, keeps_datasets (body i x)) ->
  forall i, keeps_datasets (Store.for_enumerate body i l).
Proof.
  intros Hbody. induction l as [|x l IH]; intros i;
    cbn [Store.for_enumerate].
  - apply ret_keeps_datasets.
  - apply bind_keeps_datasets; [apply Hbody|]. intros _. apply IH.
Qed.

(** Whatever the store holds, also references that form a cycle, a run of
    [ds_to_dict] that returns has changed no dataset object. *)
Lemma ds_to_dict_keeps_datasets (fuel : nat) (l : Store.loc) :
  keeps_datasets (Store.ds_to_dict fuel l).
Proof.
  revert l. induction fuel as [|fuel IH]; intros l; cbn [Store.ds_to_dict].
  - intros h out h'. discriminate.
  - apply bind_keeps_datasets; [apply get_dataset_keeps_datasets|].
    intros es. apply for_fold_keeps_datasets. intros out elem.
    destruct (Store.h_value elem) as [text|items].
    + apply ret_keeps_datasets.
    + apply bind_keeps_datasets.
      * apply for_list_keeps_datasets. exact IH.
      * intros vs. apply ret_keeps_datasets.
Qed.

Section StoreFrameFacts.

Variable tag_str : N -> string.
Variable tag_eq_str : N -> string -> bool.

#[local] Abbreviation run_extract :=
  (Store.extract_all_elements tag_str tag_eq_str).
#[local] Abbreviation extract :=
  (extract_all_elements tag_str tag_eq_str).

Lemma extract_all_elements_keeps_datasets (fuel : nat)
    (l elements : Store.loc) (indent : Z) (attrs : option (list string))
    (path : string) :
  keeps_datasets (run_extract fuel l elements indent attrs path).
Proof.
  revert l indent path.
  induction fuel as [|fuel IH]; intros l indent path;
    cbn [Store.extract_all_elements].
  - intros h u h'. discriminate.
  - apply bind_keeps_datasets; [apply get_dataset_keeps_datasets|].
    intros es. apply for_each_keeps_datasets. intros elem. cbv zeta.
    destruct (Store.h_value elem) as [text|items].
    + destruct (key_eqb _ _ _); [apply ret_keeps_datasets|].
      destruct (attrs_allow _ _ _);
        [apply list_append_keeps_datasets | apply ret_keeps_datasets].
    + apply for_enumerate_keeps_datasets. intros i item.
      apply bind_keeps_datasets; [apply list_append_keeps_datasets|].
      intros _. apply IH.
Qed.

(** C8: on a dataset object, whatever tree it has the structure of,
    both traversals return and leave every dataset object of the store
    as it was: [ds_to_dict] hands back the store unchanged, and
    [extract_all_elements] has changed the list object [elements] only,
    so that the object still has the structure it had. *)
Theorem traversals_leave_datasets_unchanged (h : Store.Heap) (t : Dataset)
    (ds elements : Store.loc) (old : list string) (fuel : nat) (indent : Z)
    (attrs : option (list string)) (path : string) :
  Store.represents (Store.datasets h) t ds = true ->
  Store.lists h !! elements = Some old ->
  (height t <= fuel)%nat ->
  (exists out : PyDict, Store.ds_to_dict fuel ds h = Some (out, h))
  /\ (exists h' : Store.Heap,
        run_extract fuel ds elements indent attrs path h = Some (tt, h')
        /\ Store.datasets h' = Store.datasets h
        /\ Store.represents (Store.datasets h') t ds = true
        /\ Store.lists h' = <[elements := extract t old indent attrs path]>
                        (Store.lists h)).
Proof.
  intros Hrep Hold Hfuel. split.
  - exists (ds_to_dict t). now apply ds_to_dict_refines.
  - exists (with_list h elements (extract t old indent attrs path)).
    rewrite <- (with_list_id h elements old Hold) at 1.
    rewrite (extract_all_elements_refines _ _ attrs t) by assumption.
    cbn [with_list Store.datasets Store.lists]. auto.
Qed.

End StoreFrameFacts.

(** C7: two runs of [ds_to_dict] on dataset objects of the same structure,
    be they different objects or objects of different stores, return
    mappings that are equal. *)
Theorem ds_to_dict_depends_on_structure_only (h1 h2 : Store.Heap)
    (l1 l2 : Store.loc) (t : Dataset) (fuel : nat) :
  Store.represents (Store.datasets h1) t l1 = true ->
  Store.represents (Store.datasets h2) t l2 = true ->
  (height t <= fuel)%nat ->
  exists out : PyDict,
    Store.ds_to_dict fuel l1 h1 = Some (out, h1)
    /\ Store.ds_to_dict fuel l2 h2 = Some (out, h2).
Proof.
  intros Hrep1 Hrep2 Hfuel. exists (ds_to_dict t).
  split; now apply ds_to_dict_refines.
Qed.

(** ** The properties at sample data *)

Lemma absent_filter_restricts_nothing_witness :
  extract_all_elements tag_hex_str tag_eq_keyword ds_flat [] 0 None ""
  = extract_all_elements tag_hex_str tag_eq_keyword
      (mkDataset [modality_CT]) [] 0 None ""
    ++ "PatientID --> 123"
       :: extract_all_elements tag_hex_str tag_eq_keyword
            (mkDataset []) [] 0 None "".
Proof.
  pose proof (absent_filter_restricts_nothing tag_hex_str tag_eq_keyword
                ds_flat [modality_CT] [] patient_id_123 "123" [] 0 ""
                eq_refl eq_refl eq_refl) as Hthm.
  exact (proj1 Hthm).
Defined.

(** C2 as the claim states it fails for the filter that is an empty list:
    it lets no line of a non-sequence element through. *)
Lemma empty_filter_restricts_nothing_counterexample :
  ~ (forall (ds : Dataset) (attrs : option (list string))
            (elem : DataElement) (text : string),
       attrs = None \/ attrs = Some [] ->
       elem ∈ elems ds ->
       value elem = Scalar text ->
       key_eqb tag_eq_keyword (keyword_or_tag elem) "PixelData" = false ->
       elem_line tag_hex_str 0 (keyword_or_tag elem) text
       ∈ extract_all_elements tag_hex_str tag_eq_keyword ds [] 0 attrs "").
Proof.
  intros Hclaim.
  specialize (Hclaim ds_flat (Some []) modality_CT "CT").
  assert (Hin : modality_CT ∈ elems ds_flat) by (simpl; left).
  specialize (Hclaim (or_intror eq_refl) Hin eq_refl eq_refl).
  vm_compute in Hclaim. inversion Hclaim.
Qed.

Lemma indentation_follows_depth_witness :
  exists (d : nat) (path' : string) (ds' : Dataset) (elem : DataElement)
         (rest : string),
    reached tag_hex_str ds_nested d path' ds'
    /\ elem ∈ elems ds'
    /\ "    (0009, 0010) --> a"
       = string_of_list_ascii (repeat " "%char (4 * d)) +:+ rest
    /\ ((exists text,
           value elem = Scalar text
           /\ rest = (if String.eqb (keyword elem) ""
                      then tag_hex_str (tag elem) else keyword elem)
                     +:+ " --> " +:+ text)
        \/ (exists items i item,
              value elem = Sequence items
              /\ items !! i = Some item
              /\ rest = "[Sequence Item] "
                        +:+ (if String.eqb path' ""
                             then (if String.eqb (keyword elem) ""
                                   then tag_hex_str (tag elem)
                                   else keyword elem)
                             else path' +:+ "." +:+
                                  (if String.eqb (keyword elem) ""
                                   then tag_hex_str (tag elem)
                                   else keyword elem))
                        +:+ "[" +:+ pretty i +:+ "]"))
    /\ ((forall t, exists r, tag_hex_str t = String "(" r) ->
        all_keywords no_space ds_nested = true ->
        forall tail, rest <> String " " tail).
Proof.
  apply (proj1 (indentation_follows_depth tag_hex_str tag_eq_keyword
                  ds_nested None)).
  vm_compute. do 6 right. left.
Defined.

Lemma pixel_data_never_emitted_witness :
  exists new : list string,
    extract_all_elements tag_hex_str tag_eq_keyword ds_nested [] 0
      (Some ["PixelData"; "Modality"]) "" = [] ++ new
    /\ forall (line : string) (n : Z) (v : string),
         line ∈ new -> line ≠ spaces n +:+ "PixelData" +:+ " --> " +:+ v.
Proof.
  destruct (pixel_data_never_emitted tag_hex_str tag_eq_keyword ds_nested []
              0 (Some ["PixelData"; "Modality"]) "")
    as (new & Hnew & _ & Hplain).
  exists new. split; [exact Hnew|]. apply Hplain.
  - intros t. eexists. reflexivity.
  - vm_compute. reflexivity.
Defined.


Lemma keywordless_element_uses_tag_witness :
  extract_all_elements tag_hex_str tag_eq_keyword ds_item [] 4 None
    "ReferencedSeriesSequence[1]"
  = extract_all_elements tag_hex_str tag_eq_keyword
      (mkDataset [patient_id_123]) [] 4 None "ReferencedSeriesSequence[1]"
    ++ "    (0009, 0010) --> a"
       :: extract_all_elements tag_hex_str tag_eq_keyword (mkDataset []) []
            4 None "ReferencedSeriesSequence[1]".
Proof.
  exact (keywordless_element_uses_tag tag_hex_str tag_eq_keyword ds_item
           [patient_id_123] [] private_a [] 4 None
           "ReferencedSeriesSequence[1]" eq_refl eq_refl eq_refl I).
Defined.

Lemma ds_to_dict_depends_on_structure_only_witness :
  (1 ≠ 2)%positive
  /\ exists out : PyDict,
       Store.ds_to_dict 1 1%positive sample_heap = Some (out, sample_heap)
       /\ Store.ds_to_dict 1 2%positive sample_heap = Some (out, sample_heap).
Proof.
  split; [discriminate|].
  apply (ds_to_dict_depends_on_structure_only sample_heap sample_heap
           1%positive 2%positive ds_flat 1).
  - vm_compute. reflexivity.
  - vm_compute. reflexivity.
  - vm_compute. lia.
Defined.

Lemma traversals_leave_datasets_unchanged_witness :
  (exists out : PyDict,
     Store.ds_to_dict 2 3%positive sample_heap = Some (out, sample_heap))
  /\ (exists h' : Store.Heap,
        Store.extract_all_elements tag_hex_str tag_eq_keyword 2 3%positive
          1%positive 0 None "" sample_heap = Some (tt, h')
        /\ Store.datasets h' = Store.datasets sample_heap
        /\ Store.represents (Store.datasets h') ds_shared 3%positive = true
        /\ Store.lists h'
           = <[1%positive := extract_all_elements tag_hex_str tag_eq_keyword
                               ds_shared [] 0 None ""]>
               (Store.lists sample_heap)).
Proof.
  apply (traversals_leave_datasets_unchanged tag_hex_str tag_eq_keyword
           sample_heap ds_shared 3%positive 1%positive [] 2 0 None "").
  - vm_compute. reflexivity.
  - vm_compute. reflexivity.
  - vm_compute. lia.
Defined.

(** The examples of the specification: a filter that names one keyword
    lets the line of that keyword through, and an empty dataset gives
    empty outputs, the loop of [get_dicom_elements_file] making no lookup
    there. *)
Example extract_modality_only :
  extract_all_elements tag_hex_str tag_eq_keyword ds_flat [] 0
    (Some ["Modality"]) ""
  = ["Modality --> CT"].
Proof. reflexivity. Qed.

Example traversals_of_empty_dataset :
  ds_to_dict (mkDataset []) = ∅
  /\ extract_all_elements tag_hex_str tag_eq_keyword (mkDataset []) [] 0
       None "" = []
  /\ get_dicom_elements_file tag_name_str element_key_lookup (mkDataset [])
       None
     = Some [].
Proof. repeat split. Qed.

(** A filter that is an empty list lets nothing through. *)
Example empty_list_filter :
  extract_all_elements tag_hex_str tag_eq_keyword ds_flat [] 0 (Some []) ""
  = [].
Proof. reflexivity. Qed.

(** * Further properties *)

(** ** get_image_index *)

(** X1: whatever the number of frames, a value the recursion returns for
    [n > 0] and [t >= 0] is an index into [n] images, and it differs from
    [t] by a multiple of [n]. *)
Theorem get_image_index_in_range (depth : nat) (n t r : Z) :
  0 < n -> 0 <= t ->
  get_image_index depth n t = Some r ->
  0 <= r < n /\ exists q : Z, 0 <= q /\ t = q * n + r.
Proof.
  intros Hn. revert t.
  induction depth as [|depth IH]; intros t Ht; [discriminate|].
  destruct (Z.ltb_spec t n) as [Hlt|Hge].
  - rewrite get_image_index_small by lia. intros [= <-].
    split; [lia|]. exists 0. lia.
  - rewrite get_image_index_step by lia. intros Hrun.
    destruct (IH (t - n) ltac:(lia) Hrun) as (Hr & q & Hq & Heq).
    split; [exact Hr|]. exists (q + 1). lia.
Qed.

Lemma get_image_index_in_range_witness :
  0 <= 1 < 3 /\ exists q : Z, 0 <= q /\ 10 = q * 3 + 1.
Proof.
  apply (get_image_index_in_range 4 3 10 1); [lia | lia | reflexivity].
Defined.

(** X2: a negative [t] is below every [n > 0], so the function hands it
    back as it is: the result is negative, not the residue [t mod n]. *)
Theorem get_image_index_negative (depth : nat) (n t : Z) :
  0 < n -> t < 0 ->
  get_image_index (S depth) n t = Some t /\ t <> image_index_direct n t.
Proof.
  intros Hn Ht. split; [apply get_image_index_small; lia|].
  unfold image_index_direct.
  pose proof (Z.mod_pos_bound t n Hn). lia.
Qed.

Lemma get_image_index_negative_witness :
  get_image_index 1 3 (-2) = Some (-2) /\ -2 <> image_index_direct 3 (-2).
Proof. apply (get_image_index_negative 0 3 (-2)); lia. Defined.

Lemma get_image_index_needs_frames_witness :
  get_image_index 3 3 10 = None.
Proof.
  apply (get_image_index_needs_frames 3 3 10); [lia | lia | vm_compute; lia].
Defined.

Lemma get_image_index_diverges_witness :
  get_image_index 1000 0 5 = None.
Proof. apply (get_image_index_diverges 1000 0 5); lia. Defined.

(** ** ds_to_dict *)

Lemma ds_to_dict_size_le (es : list DataElement) :
  (size (ds_to_dict (mkDataset es)) <= List.length es)%nat.
Proof.
  induction es as [|elem es IH] using rev_ind.
  - rewrite ds_to_dict_fold. simpl. now rewrite map_size_empty.
  - rewrite ds_to_dict_snoc, length_app, map_size_insert.
    cbn [List.length]. revert IH.
    generalize (ds_to_dict (mkDataset es)) as out. intros out IH.
    destruct (out !! name elem); unfold id; lia.
Qed.

(** X6: the mapping has at most one entry per element, and exactly one
    per element where no two elements share a display name. *)
Theorem ds_to_dict_size (ds : Dataset) :
  (size (ds_to_dict ds) <= List.length (elems ds))%nat
  /\ (NoDup (map name (elems ds)) ->
      size (ds_to_dict ds) = List.length (elems ds)).
Proof.
  destruct ds as [es]. cbn [elems]. split; [apply ds_to_dict_size_le|].
  induction es as [|elem es IH] using rev_ind; intros Hnames.
  - rewrite ds_to_dict_fold. simpl. now rewrite map_size_empty.
  - rewrite map_app in Hnames. apply NoDup_app in Hnames as (Hes & Hnew & _).
    assert (Hfresh : ds_to_dict (mkDataset es) !! name elem = None).
    { apply eq_None_not_Some. intros Hsome.
      apply ds_to_dict_lookup_is_Some in Hsome as (e & Hin & Hname).
      cbn [elems] in Hin. apply (Hnew (name elem)).
      - rewrite <- Hname.
        apply list_elem_of_In, in_map, list_elem_of_In, Hin.
      - simpl. left. }
    rewrite ds_to_dict_snoc, length_app. cbn [List.length].
    rewrite map_size_insert_None, IH by assumption. lia.
Qed.

Lemma ds_to_dict_size_witness :
  size (ds_to_dict ds_nested) = 3%nat.
Proof.
  apply (proj2 (ds_to_dict_size ds_nested)).
  apply (bool_decide_unpack _). vm_compute. exact I.
Defined.

Lemma ds_to_dict_lookup_distinct (es : list DataElement) (elem : DataElement) :
  NoDup (map name es) -> elem ∈ es ->
  ds_to_dict (mkDataset es) !! name elem = Some (elem_to_value elem).
Proof.
  intros Hnames Hin.
  apply list_elem_of_split in Hin as (before & after & ->).
  apply ds_to_dict_lookup_last.
  rewrite map_app in Hnames. apply NoDup_app in Hnames as (_ & _ & Hafter).
  cbn [map] in Hafter. apply NoDup_cons in Hafter as [Hnotin _].
  apply Forall_forall. intros later Hlater Heq. apply Hnotin.
  rewrite <- Heq. apply list_elem_of_In, in_map, list_elem_of_In, Hlater.
Qed.

(** X5: the keys of the mapping are the display names of the elements of
    the dataset, and nothing else. *)
Theorem ds_to_dict_keys (ds : Dataset) :
  dom (ds_to_dict ds) = list_to_set (map name (elems ds)).
Proof.
  apply set_eq. intros key.
  rewrite elem_of_dom, ds_to_dict_lookup_is_Some, elem_of_list_to_set.
  split.
  - intros (elem & Hin & <-).
    apply list_elem_of_In, in_map, list_elem_of_In, Hin.
  - intros Hin. apply list_elem_of_In, in_map_iff in Hin as (elem & <- & Hin).
    exists elem. split; [now apply list_elem_of_In | reflexivity].
Qed.

(** X7: where no two elements share a display name the mapping does not
    depend on the order of the elements. *)
Theorem ds_to_dict_order_irrelevant (es es' : list DataElement) :
  NoDup (map name es) -> es ≡ₚ es' ->
  ds_to_dict (mkDataset es) = ds_to_dict (mkDataset es').
Proof.
  intros Hnames Hperm.
  assert (Hnames' : NoDup (map name es')).
  { eapply NoDup_Permutation_proper; [|exact Hnames].
    symmetry. now apply Permutation_map. }
  apply map_eq. intros key.
  destruct (ds_to_dict (mkDataset es) !! key) as [v|] eqn:Hlook.
  - assert (Hsome : is_Some (ds_to_dict (mkDataset es) !! key)) by eauto.
    apply ds_to_dict_lookup_is_Some in Hsome as (elem & Hin & <-).
    cbn [elems] in Hin.
    rewrite (ds_to_dict_lookup_distinct es elem Hnames Hin) in Hlook.
    rewrite <- Hlook. symmetry. apply ds_to_dict_lookup_distinct; [done|].
    now rewrite <- Hperm.
  - symmetry. apply eq_None_not_Some. intros Hsome.
    apply ds_to_dict_lookup_is_Some in Hsome as (elem & Hin & <-).
    cbn [elems] in Hin. rewrite <- Hperm in Hin.
    rewrite (ds_to_dict_lookup_distinct es elem Hnames Hin) in Hlook.
    discriminate.
Qed.

Lemma ds_to_dict_order_irrelevant_witness :
  ds_to_dict (mkDataset [modality_CT; patient_id_123])
  = ds_to_dict (mkDataset [patient_id_123; modality_CT]).
Proof.
  apply (ds_to_dict_order_irrelevant [modality_CT; patient_id_123]
           [patient_id_123; modality_CT]).
  - apply (bool_decide_unpack _). vm_compute. exact I.
  - apply perm_swap.
Defined.

Section WalkerMore.

Variable tag_str : N -> string.
Variable tag_eq_str : N -> string -> bool.

#[local] Abbreviation extract := (extract_all_elements tag_str tag_eq_str).
#[local] Abbreviation lines_of := (elem_lines tag_str tag_eq_str).

(** X8: the call only appends: what [elements] held stays in front, and
    the lines that follow do not depend on it. *)
Theorem extract_all_elements_only_appends (ds : Dataset) (indent : Z)
    (attrs : option (list string)) (path : string) :
  exists new : list string,
    forall elements : list string,
      extract ds elements indent attrs path = elements ++ new.
Proof.
  exists (extract ds [] indent attrs path). intros elements.
  apply extract_app.
Qed.

Lemma concat_sublist {A : Type} (ls ks : list (list A)) :
  Forall2 sublist ls ks -> concat ls `sublist_of` concat ks.
Proof.
  induction 1 as [|l k ls ks Hl _ IH]; simpl; [constructor|].
  now apply sublist_app.
Qed.

Lemma Forall2_imap_items {A B : Type} (R : B -> B -> Prop)
    (l : list A) :
  forall f g : nat -> A -> B,
    Forall (fun x => forall i, R (f i x) (g i x)) l ->
    Forall2 R (imap f l) (imap g l).
Proof.
  induction l as [|x l IH]; intros f g Hl; simpl; [constructor|].
  apply Forall_cons in Hl as [Hx Hl]. constructor; [apply Hx|].
  apply IH. eapply Forall_impl; [exact Hl|]. intros y Hy i. apply Hy.
Qed.

(** X9: a filter that lets through what another lets through gives a
    subsequence of the other's output; every filter gives a subsequence
    of the output without filter. *)
Theorem extract_all_elements_filter_monotone
    (attrs attrs' : option (list string)) (ds : Dataset) :
  (forall k, attrs_allow tag_eq_str attrs k = true ->
             attrs_allow tag_eq_str attrs' k = true) ->
  forall (indent : Z) (path : string),
    extract ds [] indent attrs path
    `sublist_of` extract ds [] indent attrs' path.
Proof.
  intros Hallow.
  induction ds as [es IH] using Dataset_nested_ind.
  intros indent path. rewrite !extract_lines. cbn [elems app].
  apply concat_sublist.
  induction IH as [|elem es Helem _ IHes]; cbn [map]; constructor;
    [|exact IHes].
  unfold elem_lines, elem_items in *. cbv zeta.
  destruct (value elem) as [text|items].
  - destruct (key_eqb _ _ _); [constructor|].
    destruct (attrs_allow tag_eq_str attrs _) eqn:Ha.
    + now rewrite (Hallow _ Ha).
    + apply sublist_nil_l.
  - apply concat_sublist, Forall2_imap_items.
    eapply Forall_impl; [exact Helem|]. intros item Hitem i. simpl.
    apply sublist_skip, Hitem.
Qed.

End WalkerMore.

Lemma extract_all_elements_filter_monotone_witness :
  extract_all_elements tag_hex_str tag_eq_keyword ds_nested [] 0
    (Some ["Modality"]) ""
  `sublist_of`
  extract_all_elements tag_hex_str tag_eq_keyword ds_nested [] 0 None "".
Proof.
  apply (extract_all_elements_filter_monotone tag_hex_str tag_eq_keyword
           (Some ["Modality"]) None ds_nested).
  reflexivity.
Defined.

(** ** Tag names *)

Lemma hex_value_of_hex_char (c : ascii) :
  char_in c "0123456789ABCDEFabcdef" = true ->
  exists v : N, hex_value c = Some v /\ (v < 16)%N.
Proof.
  intros Hc.
  assert (Hcode : In (N_of_ascii c)
                    (map N_of_ascii
                       (list_ascii_of_string "0123456789ABCDEFabcdef"))).
  { revert Hc. generalize "0123456789ABCDEFabcdef".
    intros s. induction s as [|c' s IH]; cbn [char_in]; [discriminate|].
    intros Hc. apply orb_true_iff in Hc as [Hc|Hc].
    - apply Ascii.eqb_eq in Hc. subst c'. now left.
    - right. now apply IH. }
  unfold hex_value. cbn in Hcode.
  repeat (destruct Hcode as [<-|Hcode];
          [eexists; split; reflexivity|]).
  contradiction.
Qed.

Lemma int16_four_digits (c1 c2 c3 c4 : ascii) (v1 v2 v3 v4 : N) :
  hex_value c1 = Some v1 -> hex_value c2 = Some v2 ->
  hex_value c3 = Some v3 -> hex_value c4 = Some v4 ->
  int16 (String c1 (String c2 (String c3 (String c4 ""))))
  = Some (((v1 * 16 + v2) * 16 + v3) * 16 + v4)%N.
Proof.
  intros H1 H2 H3 H4. cbn [int16 int16_digits].
  rewrite H1. cbn [int16_digits]. rewrite H2, H3, H4.
  now rewrite N.mul_0_l, N.add_0_l.
Qed.

Lemma hex_name_gives_tag (tag_name : string) :
  is_hex_tag_name tag_name = true ->
  exists group element : N,
    hex_group_element tag_name = Some (group, element)
    /\ (group < 65536)%N /\ (element < 65536)%N.
Proof.
  unfold is_hex_tag_name. intros H. apply andb_true_iff in H as [Hlen Hall].
  apply Nat.eqb_eq in Hlen.
  do 8 (destruct tag_name as [|? tag_name]; [discriminate Hlen|]).
  destruct tag_name; [|discriminate Hlen]. clear Hlen.
  cbn [all_chars] in Hall.
  repeat match goal with
         | H : _ && _ = true |- _ => apply andb_true_iff in H as [? ?]
         end.
  repeat match goal with
         | H : char_in _ _ = true |- _ =>
             apply hex_value_of_hex_char in H as (? & ? & ?)
         end.
  unfold hex_group_element. cbn [substring].
  erewrite !int16_four_digits by eassumption.
  eexists _, _. split; [reflexivity|]. split; lia.
Qed.

(** X14: a name of eight hexadecimal digits always gives a group and an
    element, both below 65536: the conversion cannot raise. *)
Theorem hex_tag_name_parses (tag_name : string) :
  is_hex_tag_name tag_name = true ->
  exists group element : N,
    hex_group_element tag_name = Some (group, element)
    /\ (group < 65536)%N /\ (element < 65536)%N.
Proof. exact (hex_name_gives_tag tag_name). Qed.

Lemma hex_tag_name_parses_witness :
  exists group element : N,
    hex_group_element "30210010" = Some (group, element)
    /\ (group < 65536)%N /\ (element < 65536)%N.
Proof. apply (hex_tag_name_parses "30210010"). reflexivity. Defined.

Lemma hex_digit_value (d : N) :
  (d < 16)%N ->
  exists c : ascii,
    hex_digit d = String c ""
    /\ hex_value c = Some d
    /\ char_in c "0123456789ABCDEFabcdef" = true.
Proof.
  intros Hd.
  assert (Hcases : In d (map N.of_nat (seq 0 16))).
  { apply in_map_iff. exists (N.to_nat d). split; [lia|].
    apply in_seq. lia. }
  cbn in Hcases.
  repeat (destruct Hcases as [<-|Hcases];
          [eexists; repeat split; reflexivity|]).
  contradiction.
Qed.

Lemma hex4_digits (n : N) :
  (n < 65536)%N ->
  exists c1 c2 c3 c4 : ascii,
    hex4 n = String c1 (String c2 (String c3 (String c4 "")))
    /\ int16 (hex4 n) = Some n
    /\ all_chars (fun c => char_in c "0123456789ABCDEFabcdef") (hex4 n)
       = true.
Proof.
  intros Hn. unfold hex4.
  destruct (hex_digit_value (n / 4096 mod 16)) as (c1 & -> & Hv1 & Hc1);
    [apply N.mod_lt; lia|].
  destruct (hex_digit_value (n / 256 mod 16)) as (c2 & -> & Hv2 & Hc2);
    [apply N.mod_lt; lia|].
  destruct (hex_digit_value (n / 16 mod 16)) as (c3 & -> & Hv3 & Hc3);
    [apply N.mod_lt; lia|].
  destruct (hex_digit_value (n mod 16)) as (c4 & -> & Hv4 & Hc4);
    [apply N.mod_lt; lia|].
  exists c1, c2, c3, c4. split; [reflexivity|]. split.
  - change (String c1 "" +:+ String c2 "" +:+ String c3 "" +:+ String c4 "")
      with (String c1 (String c2 (String c3 (String c4 "")))).
    rewrite (int16_four_digits _ _ _ _ _ _ _ _ Hv1 Hv2 Hv3 Hv4).
    f_equal.
    replace (n / 4096)%N with (n / 16 / 16 / 16)%N
      by (rewrite !N.Div0.div_div; reflexivity).
    replace (n / 256)%N with (n / 16 / 16)%N
      by (rewrite !N.Div0.div_div; reflexivity).
    pose proof (N.div_mod n 16 ltac:(lia)) as E0.
    pose proof (N.div_mod (n / 16) 16 ltac:(lia)) as E1.
    pose proof (N.div_mod (n / 16 / 16) 16 ltac:(lia)) as E2.
    pose proof (N.div_mod (n / 16 / 16 / 16) 16 ltac:(lia)) as E3.
    pose proof (N.mod_lt n 16 ltac:(lia)).
    pose proof (N.mod_lt (n / 16) 16 ltac:(lia)).
    pose proof (N.mod_lt (n / 16 / 16) 16 ltac:(lia)).
    pose proof (N.mod_lt (n / 16 / 16 / 16) 16 ltac:(lia)).
    generalize dependent (n / 16 / 16 / 16 / 16)%N.
    generalize dependent ((n / 16 / 16 / 16) mod 16)%N.
    generalize dependent (n / 16 / 16 / 16)%N.
    generalize dependent ((n / 16 / 16) mod 16)%N.
    generalize dependent (n / 16 / 16)%N.
    generalize dependent ((n / 16) mod 16)%N.
    generalize dependent (n / 16)%N.
    generalize dependent (n mod 16)%N.
    intros. lia.
  - change (String c1 "" +:+ String c2 "" +:+ String c3 "" +:+ String c4 "")
      with (String c1 (String c2 (String c3 (String c4 "")))).
    cbn [all_chars]. now rewrite Hc1, Hc2, Hc3, Hc4.
Qed.

(** X15: the eight hexadecimal digits of a group and an element are a tag
    name that is read back as that group and that element. *)
Theorem hex_tag_name_round_trip (group element : N) :
  (group < 65536)%N -> (element < 65536)%N ->
  is_hex_tag_name (hex4 group +:+ hex4 element) = true
  /\ hex_group_element (hex4 group +:+ hex4 element)
     = Some (group, element).
Proof.
  intros Hg He.
  destruct (hex4_digits group Hg) as (g1 & g2 & g3 & g4 & Hgs & Hgv & Hgc).
  destruct (hex4_digits element He)
    as (e1 & e2 & e3 & e4 & Hes & Hev & Hec).
  rewrite Hgs, Hes in *. split.
  - unfold is_hex_tag_name.
    change (String g1 (String g2 (String g3 (String g4 "")))
            +:+ String e1 (String e2 (String e3 (String e4 ""))))
      with (String g1 (String g2 (String g3 (String g4
             (String e1 (String e2 (String e3 (String e4 "")))))))).
    cbn [String.length Nat.eqb andb all_chars] in *.
    repeat match goal with
           | H : _ && _ = true |- _ => apply andb_true_iff in H as [? ?]
           end.
    repeat (apply andb_true_iff; split); assumption.
  - unfold hex_group_element.
    change (String g1 (String g2 (String g3 (String g4 "")))
            +:+ String e1 (String e2 (String e3 (String e4 ""))))
      with (String g1 (String g2 (String g3 (String g4
             (String e1 (String e2 (String e3 (String e4 "")))))))).
    cbn [substring]. now rewrite Hgv, Hev.
Qed.

Lemma hex_tag_name_round_trip_witness :
  is_hex_tag_name (hex4 12321 +:+ hex4 16) = true
  /\ hex_group_element (hex4 12321 +:+ hex4 16) = Some (12321, 16)%N.
Proof. apply (hex_tag_name_round_trip 12321 16); reflexivity. Defined.

(** ** The operations on tags *)

Section TagOperationsFacts.

Variables D V : Type.
Variable contains : D -> N -> N -> bool.
Variable set_item_value : D -> N -> N -> V -> Outcome D.
Variable add_new_LO : D -> N -> N -> V -> Outcome D.
Variable del_item : D -> N -> N -> Outcome D.
Variable hasattr : D -> string -> bool.
Variable setattr : D -> string -> V -> Outcome D.
Variable delattr : D -> string -> Outcome D.

(** X16: a tag named by eight hexadecimal digits that the dataset does not
    hold is passed over: the dataset comes back untouched, without an
    exception and without a call that writes. *)
Theorem update_tags_ds_skips_absent_hex (ds : D) (tag_name : string)
    (value : V) :
  is_hex_tag_name tag_name = true ->
  (forall group element,
     hex_group_element tag_name = Some (group, element) ->
     contains ds group element = false) ->
  update_tags_ds D V contains set_item_value hasattr setattr ds tag_name
    value
  = (ds, None).
Proof.
  intros Hhex Habsent. unfold update_tags_ds. rewrite Hhex.
  destruct (hex_name_gives_tag tag_name Hhex) as (g & e & Hparse & _).
  rewrite Hparse, (Habsent g e Hparse). reflexivity.
Qed.

(** X17: no [ValueError] and no [KeyError] leaves [update_tags_ds]; for a
    name that is not eight hexadecimal digits no exception at all does,
    and [setattr] is called whether the dataset has the attribute or not,
    so that a keyword the dataset lacks is added. *)
Theorem update_tags_ds_exceptions (ds : D) (tag_name : string) (value : V) :
  let outcome :=
    update_tags_ds D V contains set_item_value hasattr setattr ds tag_name
      value in
  snd outcome <> Some ValueError
  /\ snd outcome <> Some KeyError
  /\ (is_hex_tag_name tag_name = false ->
      outcome = (fst (setattr ds tag_name value), None)).
Proof.
  unfold update_tags_ds.
  destruct (is_hex_tag_name tag_name) eqn:Hhex; cbv zeta.
  - split; [|split; [|discriminate]].
    + destruct (hex_group_element tag_name) as [[g e]|]; [|discriminate].
      destruct (contains ds g e); [|discriminate].
      destruct (set_item_value ds g e value) as [ds' [[]|]]; discriminate.
    + destruct (hex_group_element tag_name) as [[g e]|]; [|discriminate].
      destruct (contains ds g e); [|discriminate].
      destruct (set_item_value ds g e value) as [ds' [[]|]]; discriminate.
  - split; [discriminate|]. split; [discriminate|]. intros _.
    now destruct (hasattr ds tag_name).
Qed.

(** X18: [add_tags] never writes over a tag the dataset holds: the dataset
    that is saved is the one that was read. *)
Theorem add_tags_keeps_present (ds : D) (tag_name : string) (value : V) :
  (if is_hex_tag_name tag_name
   then exists group element,
          hex_group_element tag_name = Some (group, element)
          /\ contains ds group element = true
   else hasattr ds tag_name = true) ->
  add_tags D V contains add_new_LO hasattr setattr ds tag_name value = ds.
Proof.
  unfold add_tags. destruct (is_hex_tag_name tag_name).
  - intros (g & e & -> & ->). reflexivity.
  - intros ->. reflexivity.
Qed.

(** X19: [remove_tags] of a tag the dataset does not hold saves the dataset
    as it was read; no call that deletes is made. *)
Theorem remove_tags_absent (ds : D) (tag_name : string) :
  (if is_hex_tag_name tag_name
   then forall group element,
          hex_group_element tag_name = Some (group, element) ->
          contains ds group element = false
   else hasattr ds tag_name = false) ->
  remove_tags D contains del_item hasattr delattr ds tag_name = ds.
Proof.
  unfold remove_tags. destruct (is_hex_tag_name tag_name) eqn:Hhex.
  - intros Habsent.
    destruct (hex_name_gives_tag tag_name Hhex) as (g & e & Hparse & _).
    rewrite Hparse, (Habsent g e Hparse). reflexivity.
  - intros ->. reflexivity.
Qed.

End TagOperationsFacts.

(** ** get_not_deidentified_list *)

Section DeidentificationFacts.

Variable V : Type.
Variable truthy : V -> bool.
Variable eq_empty_str : V -> bool.
Variable str : V -> string.
Variable lookup : string -> option V.

#[local] Abbreviation loop := (deid_loop V truthy eq_empty_str str lookup).
#[local] Abbreviation turn := (deid_turn V truthy eq_empty_str str lookup).

Lemma deid_loop_snoc (deid_tags : list string) (deidtag : string) :
  loop (deid_tags ++ [deidtag]) = turn (loop deid_tags) deidtag.
Proof. unfold deid_loop. now rewrite foldl_snoc. Qed.

#[local] Abbreviation blank :=
  (fun value : V => negb (truthy value) || eq_empty_str value).

(** X20: every tag that is asked for lands in exactly one of the three
    lists: their lengths add up to the number of tags asked for. *)
Theorem deid_lists_account_for_every_tag (deid_tags : list string) :
  let lists := deid_loop V truthy eq_empty_str str lookup deid_tags in
  (List.length (not_deidentified_list lists)
   + List.length (deidentified_list lists)
   + List.length (not_existing_keys lists))%nat
  = List.length deid_tags.
Proof.
  cbv zeta.
  induction deid_tags as [|deidtag deid_tags IH] using rev_ind;
    [reflexivity|].
  rewrite deid_loop_snoc, length_app. cbn [List.length].
  unfold deid_turn. destruct (lookup deidtag) as [value|].
  - destruct (negb (truthy value) || eq_empty_str value);
      cbn [not_deidentified_list deidentified_list not_existing_keys];
      rewrite length_app; cbn [List.length]; lia.
  - cbn [not_deidentified_list deidentified_list not_existing_keys].
    rewrite length_app. cbn [List.length]. lia.
Qed.

(** X21: the entries of the list the function returns are the entries
    ["<tag>:<value>"] of the tags asked for that the dataset holds with a
    value that is neither false nor the empty string; a tag the dataset
    lacks gives no entry. *)
Theorem get_not_deidentified_list_entries (deid_tags : list string)
    (entry : string) :
  entry ∈ get_not_deidentified_list V truthy eq_empty_str str lookup
            deid_tags
  <-> exists (deidtag : string) (value : V),
        deidtag ∈ deid_tags
        /\ lookup deidtag = Some value
        /\ blank value = false
        /\ entry = deidtag +:+ ":" +:+ str value.
Proof.
  unfold get_not_deidentified_list.
  induction deid_tags as [|deidtag deid_tags IH] using rev_ind.
  - split.
    + intros H. now apply elem_of_nil in H.
    + intros (? & ? & H & _). now apply elem_of_nil in H.
  - rewrite deid_loop_snoc. unfold deid_turn.
    destruct (lookup deidtag) as [value|] eqn:Hlook;
      [destruct (negb (truthy value) || eq_empty_str value) eqn:Hblank|];
      cbn [not_deidentified_list]; rewrite ?elem_of_app, IH; split.
    + intros (t & v & Hin & Ht). exists t, v. split; [|exact Ht].
      apply elem_of_app. now left.
    + intros (t & v & Hin & Ht & Hv & He). exists t, v.
      split; [|auto]. apply elem_of_app in Hin as [Hin|Hin]; [exact Hin|].
      apply list_elem_of_singleton in Hin. subst t. congruence.
    + intros [(t & v & Hin & Ht)|Hentry].
      * exists t, v. split; [|exact Ht]. apply elem_of_app. now left.
      * apply list_elem_of_singleton in Hentry. exists deidtag, value.
        split; [|auto]. apply elem_of_app. right.
        now apply list_elem_of_singleton.
    + intros (t & v & Hin & Ht & Hv & He).
      apply elem_of_app in Hin as [Hin|Hin].
      * left. exists t, v. auto.
      * right. apply list_elem_of_singleton in Hin. subst t.
        apply list_elem_of_singleton. congruence.
    + intros (t & v & Hin & Ht). exists t, v. split; [|exact Ht].
      apply elem_of_app. now left.
    + intros (t & v & Hin & Ht & Hv & He). exists t, v.
      split; [|auto]. apply elem_of_app in Hin as [Hin|Hin]; [exact Hin|].
      apply list_elem_of_singleton in Hin. subst t. congruence.
Qed.

(** X22: the function returns the empty list exactly when every tag asked
    for is missing from the dataset or has a value that is false or the
    empty string. *)
Theorem get_not_deidentified_list_empty_iff (deid_tags : list string) :
  get_not_deidentified_list V truthy eq_empty_str str lookup deid_tags = []
  <-> Forall (fun deidtag =>
                match lookup deidtag with
                | Some value => blank value = true
                | None => True
                end) deid_tags.
Proof.
  unfold get_not_deidentified_list.
  induction deid_tags as [|deidtag deid_tags IH] using rev_ind.
  - split; [constructor | reflexivity].
  - rewrite deid_loop_snoc, Forall_app, Forall_singleton, <- IH.
    unfold deid_turn. destruct (lookup deidtag) as [value|];
      [destruct (negb (truthy value) || eq_empty_str value)|];
      cbn [not_deidentified_list].
    + tauto.
    + split.
      * intros H. now apply app_eq_nil in H as [_ H].
      * intros [_ H]. discriminate.
    + tauto.
Qed.

End DeidentificationFacts.

(** ** get_dicom_elements_file_nested_text *)

Section NestedTextFacts.

Variable tag_str : N -> string.
Variable tag_eq_str : N -> string -> bool.
Variable seq_str : list Dataset -> string.

#[local] Abbreviation nested_text :=
  (get_dicom_elements_file_nested_text tag_str tag_eq_str seq_str).

(** X13: the listing is a block for the file meta information, the line
    of the dataset marker and the lines [extract_all_elements] gives for
    the dataset at indent 0.  The block depends neither on the dataset nor
    on the filter, is empty for a dataset without file meta information,
    and else holds the heading and at most one line for each element of
    the file meta information, whose sequences are not entered. *)
Theorem nested_text_structure (file_meta : option Dataset) :
  exists meta_lines : list string,
    (forall (ds : Dataset) (attrs : option (list string)),
       nested_text file_meta ds attrs
       = meta_lines ++ [String "010" "[Dataset]"]
         ++ extract_all_elements tag_str tag_eq_str ds [] 0 attrs "")
    /\ match file_meta with
       | None => meta_lines = []
       | Some meta =>
           exists rest : list string,
             meta_lines = "[File Meta Information]" :: rest
             /\ (List.length rest <= List.length (elems meta))%nat
       end.
Proof.
  unfold get_dicom_elements_file_nested_text. cbv zeta.
  eexists. split.
  - intros ds attrs. rewrite extract_app, <- app_assoc. reflexivity.
  - destruct file_meta as [[es]|]; [|reflexivity]. cbn [elems].
    generalize "[File Meta Information]" as heading.
    induction es as [|elem es IH] using rev_ind; intros heading.
    + exists []. split; [reflexivity | cbn; lia].
    + destruct (IH heading) as (rest & Hrest & Hlen).
      rewrite foldl_snoc, Hrest, length_app. cbn [List.length].
      destruct (negb _).
      * exists (rest ++ [key_text tag_str (keyword_or_tag elem) +:+ " --> "
                         +:+ value_text seq_str (value elem)]).
        split; [reflexivity|]. rewrite length_app. cbn [List.length]. lia.
      * exists rest. split; [reflexivity | lia].
Qed.

End NestedTextFacts.

(** ** get_dicom_elements_file, with a filter and with lookups that fail *)

Section FlatLinesMore.

Variable elem_str : DataElement -> string.
Variable getitem : Dataset -> DataElement -> option DataElement.

#[local] Abbreviation flat := (get_dicom_elements_file elem_str getitem).

(** The loop, started with [elements] as it is after some turns. *)
Lemma flat_loop_cons (ds : Dataset) (attrs : option (list string))
    (k : DataElement) (es : list DataElement) (acc : option (list string)) :
  foldl (fun acc k =>
           elements ← acc;
           ele ← getitem ds k;
           match attrs with
           | None => Some (elements ++ [flat_line elem_str k ele])
           | Some l =>
               if existsb (String.eqb (keyword ele)) l
               then Some (elements ++ [flat_line elem_str k ele])
               else Some elements
           end) acc (k :: es)
  = foldl (fun acc k =>
           elements ← acc;
           ele ← getitem ds k;
           match attrs with
           | None => Some (elements ++ [flat_line elem_str k ele])
           | Some l =>
               if existsb (String.eqb (keyword ele)) l
               then Some (elements ++ [flat_line elem_str k ele])
               else Some elements
           end)
      (elements ← acc;
       ele ← getitem ds k;
       match attrs with
       | None => Some (elements ++ [flat_line elem_str k ele])
       | Some l =>
           if existsb (String.eqb (keyword ele)) l
           then Some (elements ++ [flat_line elem_str k ele])
           else Some elements
       end) es.
Proof. reflexivity. Qed.

(** What the loop gives from [elements]: the lines of the elements the
    filter lets through, if every lookup is answered. *)
Lemma flat_loop_spec (ds : Dataset) (attrs : option (list string))
    (es : list DataElement) :
  forall acc : option (list string),
    foldl (fun acc k =>
             elements ← acc;
             ele ← getitem ds k;
             match attrs with
             | None => Some (elements ++ [flat_line elem_str k ele])
             | Some l =>
                 if existsb (String.eqb (keyword ele)) l
                 then Some (elements ++ [flat_line elem_str k ele])
                 else Some elements
             end) acc es
    = elements ← acc;
      found ← mapM (getitem ds) es;
      Some (elements
            ++ omap (fun kv : DataElement * DataElement =>
                       match attrs with
                       | None => Some (flat_line elem_str kv.1 kv.2)
                       | Some l =>
                           if existsb (String.eqb (keyword kv.2)) l
                           then Some (flat_line elem_str kv.1 kv.2)
                           else None
                       end) (zip es found)).
Proof.
  induction es as [|k es IH]; intros acc.
  - destruct acc as [elements|]; [|reflexivity]. simpl.
    now rewrite app_nil_r.
  - rewrite flat_loop_cons, IH. destruct acc as [elements|]; [|reflexivity].
    cbn [mbind option_bind mapM]. destruct (getitem ds k) as [ele|];
      [|reflexivity].
    cbn [mbind option_bind].
    destruct (mapM (getitem ds) es) as [found|];
      [|destruct attrs as [l|];
        [destruct (existsb _ l)|]; reflexivity].
    cbn [mbind option_bind mret option_ret zip zip_with omap list_omap fst snd].
    destruct attrs as [l|]; [destruct (existsb _ l)|];
      cbn [mbind option_bind]; now rewrite <- ?app_assoc.
Qed.

Lemma get_dicom_elements_file_spec (ds : Dataset)
    (attrs : option (list string)) :
  flat ds attrs
  = found ← mapM (getitem ds) (elems ds);
    Some (omap (fun kv : DataElement * DataElement =>
                  match attrs with
                  | None => Some (flat_line elem_str kv.1 kv.2)
                  | Some l =>
                      if existsb (String.eqb (keyword kv.2)) l
                      then Some (flat_line elem_str kv.1 kv.2)
                      else None
                  end) (zip (elems ds) found)).
Proof. exact (flat_loop_spec ds attrs (elems ds) (Some [])). Qed.

(** X11: the listing is made exactly when the library answers the lookup
    [ds[k]] for every element; one lookup that fails leaves the function
    with the exception, under every filter. *)
Theorem get_dicom_elements_file_returns_iff (ds : Dataset)
    (attrs : option (list string)) :
  is_Some (flat ds attrs)
  <-> Forall (fun k => is_Some (getitem ds k)) (elems ds).
Proof.
  rewrite get_dicom_elements_file_spec.
  assert (Hmap : is_Some (mapM (getitem ds) (elems ds))
                 <-> Forall (fun k => is_Some (getitem ds k)) (elems ds)).
  { rewrite mapM_is_Some. reflexivity. }
  rewrite <- Hmap.
  destruct (mapM (getitem ds) (elems ds)); cbn [mbind option_bind];
    split; intros [? ?]; try discriminate; eauto.
Qed.

(** X12: where the lookup [ds[k]] fails for the elements of the dataset,
    as it does for the keys the loop hands it, the listing is made for
    the empty dataset only, and is empty; any element leaves the function
    with the exception, under every filter. *)
Theorem get_dicom_elements_file_key_error (ds : Dataset)
    (attrs : option (list string)) :
  Forall (fun k => getitem ds k = None) (elems ds) ->
  get_dicom_elements_file elem_str getitem ds attrs
  = match elems ds with
    | [] => Some []
    | _ :: _ => None
    end.
Proof.
  intros Hfail. rewrite get_dicom_elements_file_spec.
  destruct (elems ds) as [|k es]; [reflexivity|].
  apply List.Forall_inv in Hfail. cbn [mapM]. rewrite Hfail. reflexivity.
Qed.

End FlatLinesMore.

(** ** ds_to_dict on a store with a cycle *)

Lemma for_list_fails {A B : Type} (f : A -> Store.Run B) (l : list A)
    (x : A) (h : Store.Heap) :
  (forall y out h', f y h = Some (out, h') -> h' = h) ->
  x ∈ l -> f x h = None -> Store.for_list f l h = None.
Proof.
  intros Hsame Hin Hx. induction l as [|y l IH];
    [now apply elem_of_nil in Hin|].
  cbn [Store.for_list]. unfold mbind at 1, Store.Run_bind at 1.
  destruct (f y h) as [[out h']|] eqn:Hy; [|reflexivity].
  apply Hsame in Hy as Hh. subst h'.
  apply elem_of_cons in Hin as [->|Hin]; [congruence|].
  unfold mbind at 1, Store.Run_bind at 1.
  change ((fix go (l0 : list A) : Store.Run (list B) :=
             match l0 with
             | [] => mret []
             | x0 :: l' =>
                 f x0 ≫= fun y0 => go l' ≫= fun ys => mret (y0 :: ys)
             end) l) with (Store.for_list f l).
  now rewrite (IH Hin).
Qed.

Lemma for_list_same_heap {A B : Type} (f : A -> Store.Run B) (l : list A)
    (h : Store.Heap) :
  (forall y h0 out h', f y h0 = Some (out, h') -> h' = h0) ->
  forall outs h', Store.for_list f l h = Some (outs, h') -> h' = h.
Proof.
  intros Hsame. revert h. induction l as [|y l IH]; intros h outs h';
    cbn [Store.for_list].
  - now intros [= _ <-].
  - unfold mbind at 1, Store.Run_bind at 1.
    destruct (f y h) as [[out h1]|] eqn:Hy; [|discriminate].
    apply Hsame in Hy. subst h1.
    unfold mbind at 1, Store.Run_bind at 1.
    change ((fix go (l0 : list A) : Store.Run (list B) :=
               match l0 with
               | [] => mret []
               | x0 :: l' =>
                   f x0 ≫= fun y0 => go l' ≫= fun ys => mret (y0 :: ys)
               end) l) with (Store.for_list f l).
    destruct (Store.for_list f l h) as [[outs' h2]|] eqn:Hl; [|discriminate].
    apply IH in Hl. subst h2. now intros [= _ <-].
Qed.

Lemma for_fold_same_heap {A B : Type} (body : B -> A -> Store.Run B)
    (l : list A) :
  (forall acc x h0 out h', body acc x h0 = Some (out, h') -> h' = h0) ->
  forall acc h out h',
    Store.for_fold body acc l h = Some (out, h') -> h' = h.
Proof.
  intros Hsame. induction l as [|x l IH]; intros acc h out h';
    cbn [Store.for_fold].
  - now intros [= _ <-].
  - unfold mbind at 1, Store.Run_bind at 1.
    destruct (body acc x h) as [[acc' h1]|] eqn:Hx; [|discriminate].
    apply Hsame in Hx. subst h1. apply IH.
Qed.

Lemma for_fold_fails {A B : Type} (body : B -> A -> Store.Run B)
    (l : list A) (x : A) (h : Store.Heap) :
  (forall acc y out h', body acc y h = Some (out, h') -> h' = h) ->
  x ∈ l -> (forall acc, body acc x h = None) ->
  forall acc, Store.for_fold body acc l h = None.
Proof.
  intros Hsame Hin Hx. induction l as [|y l IH]; intros acc;
    [now apply elem_of_nil in Hin|].
  cbn [Store.for_fold]. unfold mbind at 1, Store.Run_bind at 1.
  destruct (body acc y h) as [[acc' h']|] eqn:Hy; [|reflexivity].
  apply Hsame in Hy as Hh. subst h'.
  apply elem_of_cons in Hin as [->|Hin]; [now rewrite Hx in Hy|].
  now apply IH.
Qed.

(** A run of [ds_to_dict] that returns hands back the store it was
    given. *)
Lemma ds_to_dict_same_heap (fuel : nat) :
  forall (l : Store.loc) (h : Store.Heap) (out : PyDict) (h' : Store.Heap),
    Store.ds_to_dict fuel l h = Some (out, h') -> h' = h.
Proof.
  induction fuel as [|fuel IH]; intros l h out h'; cbn [Store.ds_to_dict];
    [discriminate|].
  unfold mbind at 1, Store.Run_bind at 1, Store.get_dataset.
  destruct (Store.datasets h !! l) as [es|]; [|discriminate].
  apply for_fold_same_heap. intros acc elem h0 out0 h0'.
  destruct (Store.h_value elem) as [text|items].
  - now intros [= _ <-].
  - unfold mbind at 1, Store.Run_bind at 1.
    destruct (Store.for_list _ items h0) as [[outs h1]|] eqn:Hitems;
      [|discriminate].
    apply for_list_same_heap in Hitems; [|exact IH]. subst h1.
    now intros [= _ <-].
Qed.

(** X10: on a dataset object one of whose sequences refers to the object
    itself the recursion of [ds_to_dict] has no end: no number of frames
    lets the run return. *)
Theorem ds_to_dict_cycle_never_returns (h : Store.Heap) (l : Store.loc)
    (es : list Store.HeapElement) (elem : Store.HeapElement)
    (items : list Store.loc) (fuel : nat) :
  Store.datasets h !! l = Some es ->
  elem ∈ es ->
  Store.h_value elem = Store.HSequence items ->
  l ∈ items ->
  Store.ds_to_dict fuel l h = None.
Proof.
  intros Hl Helem Hval Hitem.
  induction fuel as [|fuel IH]; [reflexivity|].
  cbn [Store.ds_to_dict].
  unfold mbind at 1, Store.Run_bind at 1, Store.get_dataset. rewrite Hl.
  apply (for_fold_fails _ es elem h); [|exact Helem|].
  - intros acc y out h'. destruct (Store.h_value y) as [text|its].
    + now intros [= _ <-].
    + unfold mbind at 1, Store.Run_bind at 1.
      destruct (Store.for_list _ its h) as [[outs h1]|] eqn:Hits;
        [|discriminate].
      apply for_list_same_heap in Hits; [|apply ds_to_dict_same_heap].
      subst h1. now intros [= _ <-].
  - intros acc. rewrite Hval. unfold mbind at 1, Store.Run_bind at 1.
    rewrite (for_list_fails (Store.ds_to_dict fuel) items l h);
      [reflexivity| |exact Hitem|exact IH].
    intros y out h'. apply ds_to_dict_same_heap.
Qed.

(** ** The further properties at sample data *)

Lemma update_tags_ds_skips_absent_hex_witness :
  update_tags_ds (gmap N string) string map_contains map_set map_hasattr
    map_setattr sample_tags "30210010" "x"
  = (sample_tags, None).
Proof.
  apply (update_tags_ds_skips_absent_hex (gmap N string) string map_contains
           map_set map_hasattr map_setattr sample_tags "30210010" "x").
  - reflexivity.
  - intros group element [= <- <-]. reflexivity.
Defined.

Lemma add_tags_keeps_present_witness :
  add_tags (gmap N string) string map_contains map_set map_hasattr
    map_setattr sample_tags "Modality" "MR"
  = sample_tags.
Proof.
  apply (add_tags_keeps_present (gmap N string) string map_contains map_set
           map_hasattr map_setattr sample_tags "Modality" "MR").
  reflexivity.
Defined.

Lemma remove_tags_absent_witness :
  remove_tags (gmap N string) map_contains map_del map_hasattr map_delattr
    sample_tags "30210010"
  = sample_tags.
Proof.
  apply (remove_tags_absent (gmap N string) map_contains map_del map_hasattr
           map_delattr sample_tags "30210010").
  intros group element [= <- <-]. reflexivity.
Defined.

Lemma get_dicom_elements_file_key_error_witness :
  get_dicom_elements_file tag_name_str element_key_lookup ds_flat
    (Some ["Modality"])
  = None.
Proof.
  apply (get_dicom_elements_file_key_error tag_name_str element_key_lookup
           ds_flat (Some ["Modality"])).
  repeat constructor.
Defined.

Lemma ds_to_dict_cycle_never_returns_witness :
  Store.ds_to_dict 50 1%positive cyclic_heap = None.
Proof.
  apply (ds_to_dict_cycle_never_returns cyclic_heap 1%positive
           [heap_elem modality_CT [];
            heap_elem referenced_series [1%positive]]
           (heap_elem referenced_series [1%positive]) [1%positive] 50).
  - reflexivity.
  - right. left.
  - reflexivity.
  - left.
Defined.

(** The report on [sample_tags]: Modality is not de-identified, PatientID
    is, and StudyDate is not there. *)
Example deid_report :
  deid_loop string str_truthy (fun v => String.eqb v "") (fun v => v)
    sample_lookup ["Modality"; "PatientID"; "StudyDate"]
  = mkDeidLists ["Modality:CT"] ["PatientID:"] ["StudyDate"].
Proof. reflexivity. Qed.
